(** * Color-Robot: from drawings to G-code

    A shallow embedding of the geometry and code-generation pipeline of
    [pythonFlaskServer/main.py]: the G-code emitter [toTextFile], the
    aligner [g_code_allignment], the path simplifier [smoothRasterCoords],
    the DXF reader [readFromDXF] with [scale], the probe step
    [nextPixelInShape] of the contour tracer and the dispatch [imToPaths].

    Python values are modelled as the code uses them: [int] as [Z], [str]
    as [string], lists as [list], tuples as pairs, a [float] by binary64
    ([PrimFloat]) where the code computes with it and by its printed
    decimal where the code only prints it.  A function that writes a file
    returns the sequence of its [write] calls; a function that can raise
    returns a sum with the exception. *)

From Stdlib Require Import ZArith QArith Floats String Ascii List Lia DecimalString.
From Equations.Prop Require Import Equations Logic.
From stdpp Require Import base list.
Import ListNotations.

Open Scope string_scope.
Open Scope Z_scope.

(** ** Text *)

(** The newline character, written ['\n'] in the source. *)
Definition nl : string := String (ascii_of_nat 10) "".

Definition is_nl (c : ascii) : bool := Ascii.eqb c (ascii_of_nat 10).

(** A line as it is written: its text and the newline. *)
Definition line (s : string) : string := s ++ nl.

(** [s.startswith(p)] and [s.endswith(p)]. *)
Definition startswith (s p : string) : bool := String.prefix p s.

Definition endswith (s p : string) : bool :=
  let n := String.length s in
  let k := String.length p in
  (k <=? n)%nat && String.eqb (String.substring (n - k) k s) p.

(** [s.split('\n')]: the text between newlines, empty pieces kept. *)
Fixpoint split_nl (s : string) : list string :=
  match s with
  | EmptyString => [""]
  | String c s' =>
      if is_nl c then "" :: split_nl s'
      else match split_nl s' with
           | l :: ls => String c l :: ls
           | [] => [String c ""]
           end
  end.

(** ['\n'.join(ls)]. *)
Fixpoint join_nl (ls : list string) : string :=
  match ls with
  | [] => ""
  | [l] => l
  | l :: ls' => l ++ nl ++ join_nl ls'
  end.

(** [str(n)] for an [int]. *)
Definition str_int (n : Z) : string := NilZero.string_of_int (Z.to_int n).

(** [c * k] for a one-character string. *)
Fixpoint repeat_str (c : string) (k : nat) : string :=
  match k with
  | O => ""
  | S k' => c ++ repeat_str c k'
  end.

Definition take_str (k : nat) (s : string) : string := String.substring 0 k s.
Definition drop_str (k : nat) (s : string) : string :=
  String.substring k (String.length s - k) s.

(** ** Coordinate values *)

(** A float as [toTextFile] sees it.  The emitter never computes with a
    float, it prints it; Python prints the shortest decimal that reads
    back as the same float, so a finite float is given here by that
    decimal: its sign, its digits [d1 ... dn] (no trailing zero, ["0"] for
    zero) and the position of the decimal point; the decimal is
    [0.d1...dn * 10^decpt].  [3.0] is [PyFinite false "3" 1] and
    [30.5] is [PyFinite false "305" 2]. *)
Inductive pyfloat : Type :=
  | PyFinite (neg : bool) (digits : string) (decpt : Z)
  | PyInf (neg : bool)
  | PyNaN.

(** A coordinate is an [int] (raster shapes, the placeholder shape) or a
    [float] (DXF shapes). *)
Inductive num : Type :=
  | PyInt (n : Z)
  | PyFloat (f : pyfloat).

Definition sign_str (neg : bool) : string := if neg then "-" else "".

(** The exponent of the scientific form: a sign and at least two digits. *)
Definition exp_str (e : Z) : string :=
  (if e <? 0 then "-" else "+") ++
  (if Z.abs e <? 10 then "0" else "") ++ str_int (Z.abs e).

(** [str(f)] for a float: [repr] in its short style.  Positional notation
    when [-4 < decpt <= 16], with [.0] added to a whole number; the
    scientific form otherwise. *)
Definition str_float (f : pyfloat) : string :=
  match f with
  | PyNaN => "nan"
  | PyInf neg => sign_str neg ++ "inf"
  | PyFinite neg d k =>
      let n := Z.of_nat (String.length d) in
      sign_str neg ++
      (if (k <=? -4) || (16 <? k) then
         take_str 1 d ++ (if 1 <? n then "." ++ drop_str 1 d else "")
         ++ "e" ++ exp_str (k - 1)
       else if k <=? 0 then
         "0." ++ repeat_str "0" (Z.to_nat (- k)) ++ d
       else if k <? n then
         take_str (Z.to_nat k) d ++ "." ++ drop_str (Z.to_nat k) d
       else
         d ++ repeat_str "0" (Z.to_nat (k - n)) ++ ".0")
  end.

(** [str(v)]. *)
Definition py_str (v : num) : string :=
  match v with
  | PyInt n => str_int n
  | PyFloat f => str_float f
  end.

(** [v % 1.0 == 0].  An [int] in the range of floats (grid coordinates
    are below [IMDIM]) always passes.  A finite float is a whole number
    exactly when its printed decimal has no digit after the point; for an
    infinity or a NaN the remainder is a NaN, which is not [0]. *)
Definition is_whole (v : num) : bool :=
  match v with
  | PyInt _ => true
  | PyFloat (PyFinite _ d k) => Z.of_nat (String.length d) <=? k
  | PyFloat _ => false
  end.

(** ** GCodeEmitter: [toTextFile] *)

Definition coord : Type := num * num.
Definition shape : Type := list coord.

(** The [xstr] and [ystr] of the loop body: "If coordinate is an integer,
    append a decimal point". *)
Definition axis_str (v : num) : string :=
  if is_whole v then py_str v ++ "." else py_str v.

(** The state of the emitter: what was written so far, one entry per
    [file.write], and the pen flag [up]. *)
Record emitter := { written : list string; up : bool }.

Definition write (s : string) (e : emitter) : emitter :=
  {| written := written e ++ [s]; up := up e |}.

(** The positioning line of a coordinate. *)
Definition coord_line (c : coord) : string :=
  "X" ++ axis_str (fst c) ++ " Y" ++ axis_str (snd c) ++ nl.

(** The body of [for i in range(len(shape))]. *)
Definition emit_coord (e : emitter) (c : coord) : emitter :=
  let e := write (coord_line c) e in
  if up e then {| written := written e ++ [line "Z0."]; up := false |}
  else e.

(** The body of [for shape in shapes]. *)
Definition emit_shape (e : emitter) (sh : shape) : emitter :=
  let e := fold_left emit_coord sh e in
  {| written := written e ++ [line "Z1."]; up := true |}.

(** The [write] calls of [toTextFile], in order. *)
Definition toTextFile_writes (shapes : list shape) : list string :=
  let e := {| written := [line "G17 G21 G90 G54"; line "G00 X0. Y0."];
              up := true |} in
  let e := fold_left emit_shape shapes e in
  written (write ("X0. Y0." ++ nl ++ "M2") e).

(** The content of the file [toTextFile] leaves behind. *)
Definition toTextFile (shapes : list shape) : string :=
  String.concat "" (toTextFile_writes shapes).

(** ** GCodeAligner: [g_code_allignment] *)

(** The state of the aligner: [pen_up] and [new_g_code]. *)
Record aligner := { pen_up : bool; new_g_code : list string }.

(** The body of [for line in lines]. *)
Definition align_line (a : aligner) (line : string) : aligner :=
  if startswith line "Z0" then {| pen_up := false; new_g_code := new_g_code a |}
  else if startswith line "Z1" then {| pen_up := true; new_g_code := new_g_code a |}
  else if startswith line "X" then
    let prefix := if pen_up a then "G00 " else "G01 " in
    {| pen_up := pen_up a; new_g_code := new_g_code a ++ [prefix ++ line] |}
  else a.

Definition g_code_allignment (g_code : string) : string :=
  let a := fold_left align_line (split_nl g_code)
             {| pen_up := true; new_g_code := ["G00 X0. Y0."] |} in
  join_nl (new_g_code a ++ ["G00 X0. Y0." ++ nl]).

(** A grid point as the emitter takes it. *)
Definition pt (x y : Z) : coord := (PyInt x, PyInt y).

(** The ShapeList of the end-to-end example: one closed triangle. *)
Definition triangle : list shape := [[pt 0 0; pt 1 0; pt 1 1; pt 0 0]].

(** [unlines ls]: every line followed by a newline. *)
Definition unlines (ls : list string) : string :=
  String.concat "" (map line ls).

(** The closing write: back to the origin, then the end of the program. *)
Definition footer : string := "X0. Y0." ++ nl ++ "M2".

(** What the emitter writes for one shape, read off the loop: the first
    coordinate, the pen-down marker, the other coordinates, the pen-up
    marker; for a shape without coordinates the pen-up marker alone. *)
Definition pen_block (sh : shape) : list string :=
  match sh with
  | [] => [line "Z1."]
  | c :: cs => coord_line c :: line "Z0." :: map coord_line cs ++ [line "Z1."]
  end.

Definition pen_blocks (shapes : list shape) : list string :=
  concat (map pen_block shapes).

(** How often a marker was written. *)
Definition count_writes (s : string) (ws : list string) : nat :=
  length (List.filter (fun w => String.eqb w s) ws).

(** A text without a newline. *)
Fixpoint nl_free (s : string) : bool :=
  match s with
  | EmptyString => true
  | String c s' => negb (is_nl c) && nl_free s'
  end.

(** The float [3.0] and the float [0.0], as a DXF shape holds them. *)
Definition float_three : num := PyFloat (PyFinite false "3" 1).
Definition float_zero : num := PyFloat (PyFinite false "0" 1).

(** A line the aligner made of a positioning line: a motion code before a
    text without newline. *)
Definition coded (o : string) : Prop :=
  exists l, (o = ("G00 " ++ l)%string \/ o = ("G01 " ++ l)%string) /\ nl_free l = true.

(** The program of the triangle, aligned once. *)
Definition aligned_triangle : string := g_code_allignment (toTextFile triangle).

(** ** Exceptions *)

(** The exceptions the modelled code can raise. *)
Inductive exn : Type :=
  | IndexError | ValueError | NameError | ZeroDivisionError | RecursionError.

Inductive result (A : Type) : Type :=
  | Ok (a : A)
  | Raise (e : exn).
Arguments Ok {A} a.
Arguments Raise {A} e.

Definition bind {A B : Type} (r : result A) (k : A -> result B) : result B :=
  match r with
  | Ok a => k a
  | Raise e => Raise e
  end.

Notation "x <- r ;; k" := (bind r (fun x => k))
  (at level 100, r at next level, right associativity).

(** A loop body run over a list, stopping at the first exception. *)
Fixpoint mapM_result {A B : Type} (f : A -> result B) (l : list A) : result (list B) :=
  match l with
  | [] => Ok []
  | a :: l' => b <- f a ;; bs <- mapM_result f l' ;; Ok (b :: bs)
  end.

(** ** Global constants *)

Definition IMDIM : Z := 305.
Definition SMOOTHERR : Z := 1.

(** ** PathSimplifier: [smoothRasterCoords] *)

(** A traced point: integer grid coordinates. *)
Abbreviation point := (Z * Z)%type.

Section Smooth.

(** [far_from_line ci cj p] is the outcome of
    [linePointDist(m, b, p) >= SMOOTHERR] for the slope [m] and the
    intercept [b] of the line through [ci] and [cj].  The source
    computes it in binary64 with two calls of [**]; the simplifier is
    modelled for any outcome of the test. *)
Variable far_from_line : point -> point -> point -> bool.

(** One pass of the body of [while j > i + 1] up to the test of
    [canDel]: the [try] branch when the slope exists, the [except]
    branch when [coords[s][j][0] - coords[s][i][0]] is zero. *)
Definition canDel (cs : list point) (i j : nat) : result bool :=
  match cs !! j, cs !! i with
  | Some cj, Some ci =>
      let midpoints := take (j - (i + 1)) (drop (i + 1) cs) in
      if fst cj - fst ci =? 0 then
        Ok (forallb (fun p => negb (SMOOTHERR <=? Z.abs (fst ci - fst p))) midpoints)
      else
        Ok (forallb (fun p => negb (far_from_line ci cj p)) midpoints)
  | _, _ => Raise IndexError
  end.

(** [while j > i + 1]: [j] walks down until [canDel] holds.  When it
    does the source sets [i = j], which ends the loop after [j -= 1];
    the result is that [j], or [None] when the loop ran out. *)
Fixpoint scan (cs : list point) (i j : nat) : result (option nat) :=
  match j with
  | O => Ok None
  | S j' =>
      if (i + 1 <? j)%nat then
        b <- canDel cs i j ;;
        if b then Ok (Some j) else scan cs i j'
      else Ok None
  end.

Lemma scan_found cs i j k : scan cs i j = Ok (Some k) -> (i + 1 < k <= j)%nat.
Proof.
  induction j as [|j IH]; simpl; [discriminate|].
  destruct (Nat.ltb_spec (i + 1) (S j)) as [Hlt|]; [|discriminate].
  destruct (canDel cs i (S j)) as [[|]|]; simpl; intros H.
  - injection H as <-. lia.
  - apply IH in H. lia.
  - discriminate.
Qed.

(** [while i < len(coords[s]) - 2], from index [i] with [newCoords[s]]
    equal to [acc]: after a hit at [j] the points [i] and [j] are
    appended and the scan resumes at [j + 1]. *)
Equations? smooth_from (cs : list point) (i : nat) (acc : list point)
  : result (list point) by wf (length cs - i)%nat lt :=
  smooth_from cs i acc with inspect (i <? length cs - 2)%nat => {
    | exist _ false _ => Ok acc
    | exist _ true Hi with inspect (scan cs i (length cs - 1)) => {
        | exist _ (Raise e) _ => Raise e
        | exist _ (Ok None) _ => smooth_from cs (S i) acc
        | exist _ (Ok (Some j)) Hj with inspect (cs !! i), inspect (cs !! j) => {
            | exist _ (Some ci) _, exist _ (Some cj) _ =>
                smooth_from cs (S j) (acc ++ [ci; cj])
            | _, _ => Raise IndexError } } }.
Proof.
  all: apply Nat.ltb_lt in Hi; try apply scan_found in Hj; lia.
Qed.

(** The body of [for s in range(len(coords))]. *)
Definition smooth_shape (cs : list point) : result (list point) :=
  if (length cs <=? 2)%nat then Ok cs else smooth_from cs 0 [].

(** The closing loop: "If a shape did not have removable points, copy
    the original coordinates". *)
Definition fill_empty (new old : list point) : list point :=
  if (length new =? 0)%nat then old else new.

Definition smoothRasterCoords (coords : list (list point)) : result (list (list point)) :=
  newCoords <- mapM_result smooth_shape coords ;;
  Ok (zip_with fill_empty newCoords coords).

End Smooth.

(** The test of [linePointDist] read over the reals: with [dx] and [dy]
    the differences of [cj] and [ci], the distance of [p] to the line is
    at least [SMOOTHERR] when
    [(dy * (px - xi) - (py - yi) * dx)^2 >= SMOOTHERR^2 * (dx^2 + dy^2)]. *)
Definition far_from_line_exact (ci cj p : point) : bool :=
  let dx := fst cj - fst ci in
  let dy := snd cj - snd ci in
  let n := dy * (fst p - fst ci) - (snd p - snd ci) * dx in
  SMOOTHERR * SMOOTHERR * (dx * dx + dy * dy) <=? n * n.

(** A staircase of seven traced points, and two short shapes. *)
Definition staircase : list point :=
  [(0, 0); (1, 0); (2, 0); (3, 0); (3, 1); (3, 2); (3, 3)].

(** ** Arithmetic of coordinates *)

(** The operations [readFromDXF] and [scale] apply to coordinates.  The
    source runs them on binary64 floats, the first instance.  The
    rationals are a second instance, for reading decimal numerals that
    binary64 holds without rounding. *)
Class Arith (F : Type) : Type := {
  of_int : Z -> F;                 (* an [int] operand, converted *)
  fadd : F -> F -> F;
  fmul : F -> F -> F;
  fdiv : F -> F -> option F;       (* [None]: ZeroDivisionError *)
  flt : F -> F -> bool;            (* [a < b] *)
  feq : F -> F -> bool             (* [a == b] *)
}.

(** Binary64, as Python computes. *)
#[export] Instance float_arith : Arith float := {
  of_int z := SF2Prim (binary_normalize prec emax z 0 false);
  fadd := PrimFloat.add;
  fmul := PrimFloat.mul;
  fdiv a b := if PrimFloat.eqb b 0%float then None else Some (PrimFloat.div a b);
  flt := PrimFloat.ltb;
  feq := PrimFloat.eqb
}.

(** Exact arithmetic. *)
#[export] Instance Q_arith : Arith Q := {
  of_int := inject_Z;
  fadd := Qplus;
  fmul := Qmult;
  fdiv a b := if Qeq_bool b 0 then None else Some (Qdiv a b);
  flt a b := negb (Qle_bool b a);
  feq := Qeq_bool
}.

(** ** DXFPathReader: [readFromDXF] and [scale] *)

(** The characters [str.strip()] removes, among the first 256. *)
Definition is_space (c : ascii) : bool :=
  let n := nat_of_ascii c in
  ((9 <=? n) && (n <=? 13) || (28 <=? n) && (n <=? 32)
   || (n =? 133) || (n =? 160))%nat.

Fixpoint lstrip (s : string) : string :=
  match s with
  | EmptyString => ""
  | String c s' => if is_space c then lstrip s' else s
  end.

Fixpoint rstrip (s : string) : string :=
  match s with
  | EmptyString => ""
  | String c s' =>
      let r := rstrip s' in
      if is_space c && String.eqb r "" then "" else String c r
  end.

Definition strip (s : string) : string := rstrip (lstrip s).

Section DXF.

Context {F : Type} `{Arith F}.

(** [float(s)] on a line of the file; [None]: ValueError. *)
Variable float_of_str : string -> option F.

Abbreviation vertex_pt := (F * F)%type.

(** The local variables of [readFromDXF].  [xold] and [yold] start as
    the empty list, which no float equals: [None] here.  [x] and [y]
    are unbound until a group sets them. *)
Record dxf_state : Type := {
  segment : Z;
  path : list (list vertex_pt);
  xold : option F;
  yold : option F;
  polyline : Z;
  vertex : Z;
  x : option F;
  y : option F
}.

Definition dxf_init : dxf_state :=
  {| segment := -1; path := []; xold := None; yold := None;
     polyline := 0; vertex := 0; x := None; y := None |}.

(** [v != old]. *)
Definition differs (v : F) (old : option F) : bool :=
  match old with
  | None => true
  | Some o => negb (feq v o)
  end.

(** [path[segment].append(p)], with Python's indexing: a negative
    index counts from the end. *)
Definition append_at (p : list (list vertex_pt)) (seg : Z) (v : vertex_pt)
  : result (list (list vertex_pt)) :=
  let n := Z.of_nat (length p) in
  let k := if seg <? 0 then seg + n else seg in
  if (0 <=? k) && (k <? n)
  then Ok (alter (fun sh => (sh ++ [v])%list) (Z.to_nat k) p)
  else Raise IndexError.

(** [while line < len(DXFtxt)]: [lines] is the text from index [line]
    on.  A group code consumes the line after it as well. *)
Fixpoint dxf_loop (lines : list string) (st : dxf_state) : result dxf_state :=
  match lines with
  | [] => Ok st
  | l :: rest =>
      if String.eqb l ("POLYLINE" ++ nl) then
        dxf_loop rest
          {| segment := segment st + 1; path := (path st ++ [[]])%list;
             xold := xold st; yold := yold st;
             polyline := 1; vertex := vertex st; x := x st; y := y st |}
      else if String.eqb l ("VERTEX" ++ nl) then
        dxf_loop rest
          {| segment := segment st; path := path st;
             xold := xold st; yold := yold st;
             polyline := polyline st; vertex := 1; x := x st; y := y st |}
      else if String.eqb (strip l) "10" && (vertex st =? 1) && (polyline st =? 1) then
        match rest with
        | [] => Raise IndexError
        | v :: rest' =>
            match float_of_str v with
            | None => Raise ValueError
            | Some xv =>
                dxf_loop rest'
                  {| segment := segment st; path := path st;
                     xold := xold st; yold := yold st;
                     polyline := polyline st; vertex := vertex st;
                     x := Some xv; y := y st |}
            end
        end
      else if String.eqb (strip l) "20" && (vertex st =? 1) && (polyline st =? 1) then
        match rest with
        | [] => Raise IndexError
        | v :: rest' =>
            match float_of_str v with
            | None => Raise ValueError
            | Some yv =>
                match x st with
                | None => Raise NameError
                | Some xv =>
                    if differs xv (xold st) || differs yv (yold st) then
                      p <- append_at (path st) (segment st) (xv, yv) ;;
                      dxf_loop rest'
                        {| segment := segment st; path := p;
                           xold := Some xv; yold := Some yv;
                           polyline := polyline st; vertex := vertex st;
                           x := Some xv; y := Some yv |}
                    else
                      dxf_loop rest'
                        {| segment := segment st; path := path st;
                           xold := xold st; yold := yold st;
                           polyline := polyline st; vertex := vertex st;
                           x := Some xv; y := Some yv |}
                end
            end
        end
      else if String.eqb l ("SEQEND" ++ nl) then
        dxf_loop rest
          {| segment := segment st; path := path st;
             xold := xold st; yold := yold st;
             polyline := 0; vertex := 0; x := x st; y := y st |}
      else dxf_loop rest st
  end.

(** The path [readFromDXF] has read when its loop ends, before it is
    rescaled. *)
Definition dxf_parse (DXFtxt : list string) : result (list (list vertex_pt)) :=
  st <- dxf_loop DXFtxt dxf_init ;; Ok (path st).

(** [max(a, b)] and [min(a, b)]: the second argument wins only when it
    is strictly greater, respectively smaller. *)
Definition py_max2 (a b : F) : F := if flt a b then b else a.
Definition py_min2 (a b : F) : F := if flt b a then b else a.

(** [max(l)] and [min(l)]; ValueError on the empty list. *)
Definition py_max (l : list F) : result F :=
  match l with
  | [] => Raise ValueError
  | a :: l' => Ok (fold_left py_max2 l' a)
  end.

Definition py_min (l : list F) : result F :=
  match l with
  | [] => Raise ValueError
  | a :: l' => Ok (fold_left py_min2 l' a)
  end.

(** The [size] that [scale] computes: the largest coordinate plus the
    margin, the smallest one. *)
Definition bounding_size (p : list (list vertex_pt)) : result F :=
  let xs := map fst (concat p) in
  let ys := map snd (concat p) in
  maxx <- py_max xs ;;
  maxy <- py_max ys ;;
  minx <- py_min xs ;;
  miny <- py_min ys ;;
  let margin := py_min2 minx miny in
  Ok (fadd (py_max2 maxx maxy) margin).

(** [scale(path)]; the result is the list that the source updates in
    place. *)
Definition scale (p : list (list vertex_pt)) : result (list (list vertex_pt)) :=
  size <- bounding_size p ;;
  match fdiv (of_int IMDIM) size with
  | None => Raise ZeroDivisionError
  | Some sc => Ok (map (map (fun c => (fmul (fst c) sc, fmul (snd c) sc))) p)
  end.

Definition readFromDXF (DXFtxt : list string) : result (list (list vertex_pt)) :=
  p <- dxf_parse DXFtxt ;; scale p.

End DXF.


(** [float(s)] for the plain decimal numerals of DXF group values: an
    optional sign, digits, and optionally a point and more digits,
    between optional blanks.  The value is exact; the other spellings
    [float] reads (an exponent, [inf], [nan]) are not covered. *)
Definition digit_of (c : ascii) : option Z :=
  let n := nat_of_ascii c in
  if ((48 <=? n) && (n <=? 57))%nat then Some (Z.of_nat n - 48) else None.

Fixpoint digits_value (s : string) (acc : Z) : option Z :=
  match s with
  | EmptyString => Some acc
  | String c s' =>
      match digit_of c with
      | Some d => digits_value s' (10 * acc + d)
      | None => None
      end
  end.

Fixpoint split_point (s : string) : string * option string :=
  match s with
  | EmptyString => ("", None)
  | String c s' =>
      if Ascii.eqb c "."%char then ("", Some s')
      else let '(a, b) := split_point s' in (String c a, b)
  end.

Definition unsigned_decimal (s : string) : option Q :=
  let '(ip, fp) := split_point s in
  let fp := match fp with Some f => f | None => "" end in
  if (String.length ip + String.length fp =? 0)%nat then None
  else
    match digits_value ip 0, digits_value fp 0 with
    | Some a, Some b =>
        let k := Z.of_nat (String.length fp) in
        Some (Qred (Qmake (a * 10 ^ k + b) (Z.to_pos (10 ^ k))))
    | _, _ => None
    end.

Definition float_of_decimal (s : string) : option Q :=
  match strip s with
  | String "-" s' => option_map Qopp (unsigned_decimal s')
  | String "+" s' => unsigned_decimal s'
  | s' => unsigned_decimal s'
  end.

(** Two polylines of a DXF file; the second starts where the first
    ends, at [(1, 1)]. *)
Definition two_polylines : list string :=
  map line
    ["POLYLINE"%string; "VERTEX"%string; " 10"%string; "0.0"%string; " 20"%string; "0.0"%string;
     "VERTEX"%string; " 10"%string; "1.0"%string; " 20"%string; "1.0"%string; "SEQEND"%string;
     "POLYLINE"%string; "VERTEX"%string; " 10"%string; "1.0"%string; " 20"%string; "1.0"%string;
     "VERTEX"%string; " 10"%string; "2.0"%string; " 20"%string; "2.0"%string; "SEQEND"%string].

(** ** RasterContourTracer: [nextPixelInShape] *)

(** The image, through [im.getpixel((x, y))]: the channels of the pixel,
    or [None] when the call raises IndexError. *)
Definition image : Type := Z * Z -> option (list Z).

Definition sum (l : list Z) : Z := fold_left Z.add l 0.

(** [sum(im.getpixel(p))] inside its [try], [sum((255, 255, 255))] in the
    [except]. *)
Definition pixel_sum (im : image) (p : point) : Z :=
  match im p with
  | Some channels => sum channels
  | None => sum [255; 255; 255]
  end.

Definition is_dark (im : image) (p : point) : bool :=
  pixel_sum im p <? sum [127; 127; 127].

(** The globals of the tracer. *)
Record tracer := { direc : Z; done : list point }.

Definition point_eqb (p q : point) : bool :=
  (fst p =? fst q) && (snd p =? snd q).

Definition mem_point (p : point) (l : list point) : bool := existsb (point_eqb p) l.

(** The neighbour of [px] in direction [d]: 0 = right, 1 = up, 2 = left,
    3 = down.  For another [d] the chain of [if] and [elif] binds neither
    [x] nor [y]. *)
Definition ahead (d : Z) (px : point) : option point :=
  if d =? 0 then Some (fst px + 1, snd px)
  else if d =? 1 then Some (fst px, snd px + 1)
  else if d =? 2 then Some (fst px - 1, snd px)
  else if d =? 3 then Some (fst px, snd px - 1)
  else None.

(** [nextPixelInShape(im, px)].  [depth] is the number of nested calls
    the interpreter still allows ([sys.setrecursionlimit]); a call beyond
    it raises RecursionError. *)
Fixpoint nextPixelInShape (depth : nat) (im : image) (px : point) (t : tracer)
  : result (point * tracer) :=
  match depth with
  | O => Raise RecursionError
  | S depth' =>
      let d := if is_dark im px then (direc t - 1) mod 4 else (direc t + 1) mod 4 in
      match ahead d px with
      | None => Raise NameError
      | Some q =>
          if is_dark im q then
            let dn := if mem_point q (done t) then done t else (done t ++ [q])%list in
            Ok (q, {| direc := d; done := dn |})
          else nextPixelInShape depth' im q {| direc := d; done := done t |}
      end
  end.

(** An image without a dark pixel. *)
Definition white_image : image := fun _ => Some [255; 255; 255].

(** An image with one dark pixel, at [(5, 5)]. *)
Definition one_dark_pixel : image :=
  fun p => if point_eqb p (5, 5) then Some [0; 0; 0] else Some [255; 255; 255].

(** ** Dispatch: [imToPaths] *)

(** [imToPaths(filename)].  The two readers open the file; they are
    arguments here. *)
Definition imToPaths (readFromRaster readFromDXF_file : string -> result (list shape))
  (filename : string) : result (list shape) :=
  if existsb (endswith filename) [".jpg"; ".jpeg"; ".png"; ".bmp"] then
    readFromRaster filename
  else if endswith filename ".dxf" then readFromDXF_file filename
  else Ok [[(PyInt 0, PyInt 0)]].

(** A file system without files: every reader fails. *)
Definition no_file : string -> result (list shape) := fun _ => Raise ValueError.

(** ** RasterContourTracer: [isOnEdge], [nextShape], [readFromRaster] *)

(** The four neighbours [isOnEdge] looks at, in the order of the source:
    [x - 1], [y - 1], [x + 1], [y + 1]. *)
Definition neighbours (px : point) : list point :=
  [(fst px - 1, snd px); (fst px, snd px - 1); (fst px + 1, snd px); (fst px, snd px + 1)].

(** [isOnEdge(im, px)]: each lookup sits in its own [try]; [max(hues)]
    is the largest of the four sums. *)
Definition isOnEdge (im : image) (px : point) : bool :=
  let h1 := pixel_sum im (fst px - 1, snd px) in
  let h2 := pixel_sum im (fst px, snd px - 1) in
  let h3 := pixel_sum im (fst px + 1, snd px) in
  let h4 := pixel_sum im (fst px, snd px + 1) in
  sum [127; 127; 127] <? Z.max (Z.max (Z.max h1 h2) h3) h4.

(** [range(n)]. *)
Definition range (n : Z) : list Z := map Z.of_nat (seq 0 (Z.to_nat n)).

(** The coordinates in the order the two loops of [nextShape] visit
    them: [x] outside, [y] inside. *)
Definition scan_order : list point :=
  flat_map (fun x => map (fun y => (x, y)) (range IMDIM)) (range IMDIM).

(** The test of [nextShape] at one coordinate; here the lookup has no
    [try]. *)
Definition is_start (im : image) (visited : list point) (p : point) : result bool :=
  match im p with
  | None => Raise IndexError
  | Some channels =>
      Ok ((sum channels <? sum [127; 127; 127]) && isOnEdge im p
          && negb (mem_point p visited))
  end.

(** The loops of [nextShape] over the coordinates still to visit. *)
Fixpoint nextShape_from (ps : list point) (im : image) (t : tracer)
  : result (point * tracer) :=
  match ps with
  | [] => Ok ((-1, -1), t)
  | p :: ps' =>
      c <- is_start im (done t) p ;;
      if c then Ok (p, {| direc := direc t; done := (done t ++ [p])%list |})
      else nextShape_from ps' im t
  end.

(** [nextShape(im)]. *)
Definition nextShape (im : image) (t : tracer) : result (point * tracer) :=
  nextShape_from scan_order im t.

(** The inner loop of [readFromRaster], [while nextpoint != start], for
    the shape [sh] traced so far.  [steps] bounds the iterations that are
    followed: [None] says the loop is still running after them.  The loop
    leaves [point] and [nextpoint] equal; the result carries that value. *)
Fixpoint trace_shape (steps depth : nat) (im : image) (start point nextpoint : Z * Z)
  (sh : list (Z * Z)) (t : tracer) : option (result (list (Z * Z) * (Z * Z) * tracer)) :=
  if point_eqb nextpoint start then Some (Ok (sh, nextpoint, t))
  else
    match steps with
    | O => None
    | S steps' =>
        match nextPixelInShape depth im point t with
        | Raise e => Some (Raise e)
        | Ok (q, t') =>
            trace_shape steps' depth im start q q (sh ++ [q])%list
              {| direc := direc t'; done := (done t' ++ [q])%list |}
        end
    end.

(** The outer loop, [while point != (-1, -1)]. *)
Fixpoint trace_shapes (steps depth : nat) (im : image) (point nextpoint : Z * Z)
  (shapeList : list (list (Z * Z))) (t : tracer)
  : option (result (list (list (Z * Z)) * tracer)) :=
  if point_eqb point (-1, -1) then Some (Ok (shapeList, t))
  else
    match steps with
    | O => None
    | S steps' =>
        match trace_shape steps' depth im point point nextpoint [point] t with
        | None => None
        | Some (Raise e) => Some (Raise e)
        | Some (Ok (sh, nextpoint', t')) =>
            match nextShape im t' with
            | Raise e => Some (Raise e)
            | Ok (point', t'') =>
                trace_shapes steps' depth im point' nextpoint' (shapeList ++ [sh])%list t''
            end
        end
    end.

(** The body of the closing loop of [readFromRaster]: "Ensure that each
    shape starts and ends on the same coordinate".  Both indexings raise
    on an empty shape. *)
Definition close_shape (sh : list point) : result (list point) :=
  match last sh, sh with
  | Some l, c :: _ => Ok (if point_eqb l c then sh else sh ++ [c])%list
  | _, _ => Raise IndexError
  end.

Definition close_shapes (shapeList : list (list point)) : result (list (list point)) :=
  mapM_result close_shape shapeList.

(** [readFromRaster] from the image on: the traced shapes are smoothed
    and closed.  The globals [done] and [direc] come in with [t] and go
    out with the result. *)
Definition readFromRaster (far_from_line : point -> point -> point -> bool)
  (steps depth : nat) (im : image) (t : tracer)
  : option (result (list (list point) * tracer)) :=
  match nextShape im t with
  | Raise e => Some (Raise e)
  | Ok (point, t1) =>
      match trace_shapes steps depth im point (0, 0) [] t1 with
      | None => None
      | Some (Raise e) => Some (Raise e)
      | Some (Ok (shapeList, t2)) =>
          Some (smoothed <- smoothRasterCoords far_from_line shapeList ;;
                closed <- close_shapes smoothed ;;
                Ok (closed, t2))
      end
  end.

(** A shape whose last point is its first. *)
Definition closed (sh : list point) : Prop :=
  exists c rest, sh = c :: rest /\ last sh = Some c.

(** An image of [IMDIM] by [IMDIM] pixels, white but for a dark square
    of three by three with its corner at [(10, 10)]. *)
Definition dark_square : image :=
  fun p =>
    if (0 <=? fst p) && (fst p <? IMDIM) && (0 <=? snd p) && (snd p <? IMDIM) then
      if (10 <=? fst p) && (fst p <? 13) && (10 <=? snd p) && (snd p <? 13)
      then Some [0; 0; 0] else Some [255; 255; 255]
    else None.

(** The same grid with a dark square of two by two in the corner
    [(0, 0)]. *)
Definition dark_corner : image :=
  fun p =>
    if (0 <=? fst p) && (fst p <? IMDIM) && (0 <=? snd p) && (snd p <? IMDIM) then
      if (fst p <? 2) && (snd p <? 2) then Some [0; 0; 0] else Some [255; 255; 255]
    else None.

(** The globals as the module sets them. *)
Definition fresh : tracer := {| direc := 0; done := [] |}.

(** The text of a positioning line, without its newline. *)
Definition coord_text (c : coord) : string :=
  "X" ++ axis_str (fst c) ++ " Y" ++ axis_str (snd c).

(** The lines the aligner makes of one shape: a rapid move to its first
    coordinate, cut moves to the others. *)
Definition motion_block (sh : shape) : list string :=
  match sh with
  | [] => []
  | c :: cs => ("G00 " ++ coord_text c)%string
               :: map (fun c' => ("G01 " ++ coord_text c')%string) cs
  end.

(** A traced ShapeList as the emitter takes it. *)
Definition int_shapes (shapes : list (list point)) : list shape :=
  map (map (fun p => pt (fst p) (snd p))) shapes.

(** The test of [readFromDXF] that lets a vertex in, turned round: [b]
    is taken for a repetition of [a]. *)
Definition same_vertex {F : Type} `{Arith F} (a b : F * F) : bool :=
  feq (fst b) (fst a) && feq (snd b) (snd a).

(** No point of the list repeats the point before it. *)
Fixpoint no_repeat {F : Type} `{Arith F} (l : list (F * F)) : Prop :=
  match l with
  | a :: l' =>
      match l' with
      | b :: _ => same_vertex a b = false /\ no_repeat l'
      | [] => True
      end
  | [] => True
  end.

(** A line that holds the group code [10] or [20]. *)
Definition is_group_code (l : string) : Prop :=
  strip l = "10"%string \/ strip l = "20"%string.

(** The lines the emitter writes for one shape, without their newlines. *)
Definition shape_lines (sh : shape) : list string :=
  match sh with
  | [] => ["Z1."%string]
  | c :: cs => coord_text c :: "Z0."%string :: map coord_text cs ++ ["Z1."%string]
  end.

Section DXFInvariant.

Context {F : Type} `{Arith F}.

(** What the loop keeps true of its variables: [segment] is the index of
    the last shape; inside a polyline there is a shape; [xold] and [yold]
    hold the point captured last, of whatever shape; no captured point
    repeats the one before it. *)
Definition dxf_inv (st : dxf_state) : Prop :=
  segment st = Z.of_nat (length (path st)) - 1
  /\ (polyline st = 1 -> path st <> [])
  /\ no_repeat (concat (path st))
  /\ match xold st, yold st with
     | Some xo, Some yo => last (concat (path st)) = Some (xo, yo)
     | None, None => concat (path st) = []
     | _, _ => False
     end.

End DXFInvariant.

(** ** Serial sink: [toSerial] *)

(** The state of [toSerial]: what was sent to the port, one entry per
    [port.write], and the pen flag [up]. *)
Record sender := { sent : list string; sending_up : bool }.

(** The body of [for i in range(len(shape))] in [toSerial]; the delay
    before each coordinate is not modelled. *)
Definition send_coord (s : sender) (c : coord) : sender :=
  let s := {| sent := (sent s ++ [("X" ++ axis_str (fst c) ++ " Y" ++ axis_str (snd c) ++ nl)%string])%list;
              sending_up := sending_up s |} in
  if sending_up s then {| sent := (sent s ++ [("Z0." ++ nl)%string])%list; sending_up := false |}
  else s.

(** The body of [for shape in shapes] in [toSerial]. *)
Definition send_shape (s : sender) (sh : shape) : sender :=
  let s := fold_left send_coord sh s in
  {| sent := (sent s ++ [("Z1." ++ nl)%string])%list; sending_up := true |}.

(** The search of the ports, each a device and a description: every
    port whose description starts with [Arduino] replaces the one found
    before. *)
Definition find_port (ports : list (string * string)) : option string :=
  fold_left (fun found tempport =>
               if startswith (snd tempport) "Arduino" then Some (fst tempport) else found)
    ports None.

(** [toSerial(shapes)] with the ports of the machine: [None] when it
    returns [False], else the device it wrote to and what it wrote. *)
Definition toSerial (ports : list (string * string)) (shapes : list shape)
  : option (string * list string) :=
  match find_port ports with
  | None => None
  | Some device =>
      let s := {| sent := [("G17 G21 G90 G54" ++ nl)%string; ("G00 X0. Y0." ++ nl)%string];
                  sending_up := true |} in
      let s := fold_left send_shape shapes s in
      Some (device, (sent s ++ [("X0. Y0." ++ nl ++ "M2")%string])%list)
  end.

(** ** Whole drawings in binary64 *)

(** The largest coordinate of the whole drawings on which the binary64
    results of [scale] are established. *)
Definition WHOLE_MAX : Z := 1000.

(** A drawing on whole coordinates as [readFromDXF] hands it to [scale]:
    [float] of a whole numeral is the integer, converted. *)
Definition whole_path (zp : list (list (Z * Z))) : list (list (float * float)) :=
  map (map (fun c => (of_int (fst c), of_int (snd c)))) zp.

(** The binary64 number that follows [305]: [305.00000000000006]. *)
Definition above_IMDIM : float := 0x1.3100000000001p+8%float.


(** The whole numbers below [n], each with its binary64 value. *)
Definition whole_floats (n : nat) : list (Z * float) :=
  map (fun k => (Z.of_nat k, of_int (Z.of_nat k))) (seq 0 n).

(** Binary64 [<] on the whole numbers below [n] is [<] on the integers. *)
Definition order_table (n : nat) : bool :=
  let t := whole_floats n in
  forallb (fun a => forallb (fun b =>
    Bool.eqb (PrimFloat.ltb (snd a) (snd b)) (fst a <? fst b)) t) t.

(** Binary64 [+] on the whole numbers below [n] is [+] on the integers:
    no sum is rounded. *)
Definition sum_table (n : nat) : bool :=
  let t := whole_floats n in
  forallb (fun a => forallb (fun b =>
    PrimFloat.Leibniz.eqb (PrimFloat.add (snd a) (snd b))
      (PrimFloat.of_uint63 (Uint63.of_Z (fst a + fst b)))) t) t.

(** Among the whole numbers below [n], only [0] is [== 0.0], and the
    others are [> 0.0]. *)
Definition zero_table (n : nat) : bool :=
  forallb (fun s => Bool.eqb (PrimFloat.eqb (snd s) 0%float) (fst s =? 0)
                    && Bool.eqb (PrimFloat.ltb 0%float (snd s)) (0 <? fst s))
    (whole_floats n).

(** What [scale] makes of a coordinate [x] of a path of size [s]:
    [x * (IMDIM / s)], with both roundings. *)
Definition scaled (s x : float) : float :=
  PrimFloat.mul x (PrimFloat.div (of_int IMDIM) s).



(** * Properties *)

(** ** Text lemmas *)

Lemma split_nl_pieces_nl_free (s : string) :
  Forall (fun l => nl_free l = true) (split_nl s).
Proof.
  induction s as [|c s IH]; simpl.
  - repeat constructor.
  - destruct (is_nl c) eqn:Hc.
    + constructor; [reflexivity | exact IH].
    + destruct (split_nl s) as [|l ls]; [repeat constructor; simpl; now rewrite Hc|].
      inversion IH; subst. constructor; [simpl; now rewrite Hc | assumption].
Qed.

Lemma split_nl_line (l s : string) :
  nl_free l = true -> split_nl (l ++ nl ++ s) = l :: split_nl s.
Proof.
  induction l as [|c l IH]; simpl; intros Hl; [reflexivity|].
  apply andb_prop in Hl as [Hc Hl]. apply negb_true_iff in Hc.
  specialize (IH Hl). simpl in IH. rewrite Hc, IH. reflexivity.
Qed.

Lemma split_nl_single (l : string) : nl_free l = true -> split_nl l = [l].
Proof.
  induction l as [|c l IH]; simpl; intros Hl; [reflexivity|].
  apply andb_prop in Hl as [Hc Hl]. apply negb_true_iff in Hc.
  rewrite Hc, (IH Hl). reflexivity.
Qed.

(** Splitting what was joined gives the lines back. *)
Lemma split_join_nl (ls : list string) :
  ls <> [] -> Forall (fun l => nl_free l = true) ls -> split_nl (join_nl ls) = ls.
Proof.
  induction ls as [|l ls IH]; intros Hne Hall; [congruence|].
  inversion Hall as [|? ? Hl Hls]; subst.
  destruct ls as [|l' ls].
  - simpl. now apply split_nl_single.
  - change (join_nl (l :: l' :: ls)) with (l ++ nl ++ join_nl (l' :: ls)).
    rewrite (split_nl_line _ _ Hl), IH; [reflexivity | discriminate | assumption].
Qed.

Lemma join_nl_trailing (ls : list string) (l : string) :
  join_nl (ls ++ [l ++ nl]) = join_nl (ls ++ [l; ""]).
Proof.
  induction ls as [|a ls IH].
  - simpl. reflexivity.
  - destruct ls as [|b ls].
    + simpl. reflexivity.
    + change (join_nl ((a :: b :: ls) ++ [l ++ nl]))
        with (a ++ nl ++ join_nl ((b :: ls) ++ [l ++ nl])).
      rewrite IH. reflexivity.
Qed.

(** ** GCodeEmitter *)

Open Scope list_scope.

Lemma emit_coords_down (cs : list coord) (ws : list string) :
  fold_left emit_coord cs {| written := ws; up := false |}
  = {| written := ws ++ map coord_line cs; up := false |}.
Proof.
  revert ws. induction cs as [|c cs IH]; intros ws; simpl.
  - now rewrite app_nil_r.
  - unfold emit_coord at 2, write. cbn [up written].
    rewrite IH. now rewrite <- app_assoc.
Qed.

Lemma emit_shape_writes (sh : shape) (ws : list string) :
  emit_shape {| written := ws; up := true |} sh
  = {| written := ws ++ pen_block sh; up := true |}.
Proof.
  destruct sh as [|c cs]; unfold emit_shape; cbn [fold_left]; [reflexivity|].
  unfold emit_coord at 2, write. cbn [up written].
  rewrite emit_coords_down. cbn [written pen_block].
  repeat rewrite <- app_assoc. reflexivity.
Qed.

Lemma emit_shapes_writes (shapes : list shape) (ws : list string) :
  fold_left emit_shape shapes {| written := ws; up := true |}
  = {| written := ws ++ pen_blocks shapes; up := true |}.
Proof.
  revert ws. induction shapes as [|sh shapes IH]; intros ws; simpl.
  - unfold pen_blocks. simpl. now rewrite app_nil_r.
  - rewrite (emit_shape_writes sh ws), IH.
    unfold pen_blocks. simpl. now rewrite <- app_assoc.
Qed.

(** The writes of the emitter: the two header lines, one block per shape,
    the closing write. *)
Lemma toTextFile_writes_blocks (shapes : list shape) :
  toTextFile_writes shapes
  = ([line "G17 G21 G90 G54"; line "G00 X0. Y0."] ++ pen_blocks shapes
     ++ [footer])%list.
Proof.
  unfold toTextFile_writes, write. rewrite emit_shapes_writes.
  cbn [written]. rewrite <- app_assoc. reflexivity.
Qed.

Lemma pen_blocks_app (l1 l2 : list shape) :
  pen_blocks (l1 ++ l2) = pen_blocks l1 ++ pen_blocks l2.
Proof. unfold pen_blocks. now rewrite map_app, concat_app. Qed.

Lemma count_writes_app (s : string) (l1 l2 : list string) :
  count_writes s (l1 ++ l2) = (count_writes s l1 + count_writes s l2)%nat.
Proof. unfold count_writes. now rewrite List.filter_app, length_app. Qed.

(** A positioning line begins with [X]: it is no pen marker. *)
Lemma count_writes_coord_lines (s : string) (cs : list coord) :
  (forall r, String.eqb (String "X"%char r) s = false) ->
  count_writes s (map coord_line cs) = 0%nat.
Proof.
  intros Hs. induction cs as [|c cs IH]; [reflexivity|].
  unfold count_writes in *. cbn [map List.filter].
  unfold coord_line at 1. cbn [append]. now rewrite Hs.
Qed.

(** A shape never writes more pen-down than pen-up markers. *)
Lemma pen_block_counts (sh : shape) :
  count_writes (line "Z1.") (pen_block sh) = 1%nat /\
  count_writes (line "Z0.") (pen_block sh) = (if sh is [] then 0 else 1)%nat.
Proof.
  destruct sh as [|c cs].
  - split; reflexivity.
  - unfold pen_block.
    change (coord_line c :: (line "Z0.") :: map coord_line cs ++ [line "Z1."])
      with (map coord_line [c] ++ [line "Z0."] ++ map coord_line cs ++ [line "Z1."]).
    rewrite !count_writes_app, !count_writes_coord_lines by reflexivity.
    split; reflexivity.
Qed.

Lemma pen_blocks_counts (shapes : list shape) :
  (count_writes (line "Z0.") (pen_blocks shapes)
   <= count_writes (line "Z1.") (pen_blocks shapes))%nat.
Proof.
  induction shapes as [|sh shapes IH]; [reflexivity|].
  change (pen_blocks (sh :: shapes)) with (pen_block sh ++ pen_blocks shapes).
  rewrite !count_writes_app.
  destruct (pen_block_counts sh) as [H1 H0]. rewrite H1, H0.
  destruct sh; lia.
Qed.

(** C4. On the triangle [[(0,0),(1,0),(1,1),(0,0)]] the emitter writes
    exactly the preamble, the rapid move to the origin, [X0. Y0.], the
    pen-down marker, [X1. Y0.], [X1. Y1.], [X0. Y0.], the pen-up marker,
    the final move to the origin and [M2]; and for any ShapeList, a shape
    with a first coordinate [c] and other coordinates [cs] writes the
    line of [c], then the pen-down marker, then the lines of [cs], then
    the pen-up marker. *)
Theorem toTextFile_pen_markers :
  split_nl (toTextFile triangle)
  = ["G17 G21 G90 G54"; "G00 X0. Y0."; "X0. Y0."; "Z0."; "X1. Y0."; "X1. Y1.";
     "X0. Y0."; "Z1."; "X0. Y0."; "M2"]
  /\ forall (before after : list shape) (c : coord) (cs : list coord),
      toTextFile_writes (before ++ (c :: cs) :: after)
      = ([line "G17 G21 G90 G54"; line "G00 X0. Y0."] ++ pen_blocks before
         ++ [coord_line c; line "Z0."] ++ map coord_line cs ++ [line "Z1."]
         ++ pen_blocks after ++ [footer])%list.
Proof.
  split; [reflexivity|].
  intros before after c cs.
  rewrite toTextFile_writes_blocks, pen_blocks_app.
  change (pen_blocks ((c :: cs) :: after))
    with (pen_block (c :: cs) ++ pen_blocks after).
  cbn [pen_block app]. do 2 f_equal.
  rewrite <- (app_assoc (pen_blocks before)). f_equal.
  cbn [app]. do 2 f_equal. rewrite <- !app_assoc. reflexivity.
Qed.

(** C10. For a ShapeList with an empty Polyline, the emitter writes for
    that shape the pen-up marker alone, straight after what it wrote for
    the shapes before it, and the program holds fewer pen-down than
    pen-up markers. *)
Theorem toTextFile_empty_shape_unbalanced (before after : list shape) :
  toTextFile_writes (before ++ [] :: after)
  = ([line "G17 G21 G90 G54"; line "G00 X0. Y0."] ++ pen_blocks before
     ++ [line "Z1."] ++ pen_blocks after ++ [footer])%list
  /\ (count_writes (line "Z0.") (toTextFile_writes (before ++ [] :: after))
      < count_writes (line "Z1.") (toTextFile_writes (before ++ [] :: after)))%nat.
Proof.
  rewrite toTextFile_writes_blocks, pen_blocks_app.
  change (pen_blocks ([] :: after)) with ([line "Z1."] ++ pen_blocks after).
  split; [now rewrite <- !app_assoc|].
  rewrite !count_writes_app.
  pose proof (pen_blocks_counts before). pose proof (pen_blocks_counts after).
  change (count_writes (line "Z0.") [line "G17 G21 G90 G54"; line "G00 X0. Y0."]) with 0%nat.
  change (count_writes (line "Z1.") [line "G17 G21 G90 G54"; line "G00 X0. Y0."]) with 0%nat.
  change (count_writes (line "Z0.") [line "Z1."]) with 0%nat.
  change (count_writes (line "Z1.") [line "Z1."]) with 1%nat.
  change (count_writes (line "Z0.") [footer]) with 0%nat.
  change (count_writes (line "Z1.") [footer]) with 0%nat.
  lia.
Qed.

(** C2. An [int] is printed as its digits and one point, [3] as [3.];
    the float [3.0] passes the same test and is printed as [3.0.], with
    two points: the emitter writes [X3.0. Y0.0.] for the DXF point
    [(3.0, 0.0)]. *)
Theorem axis_str_float_two_points :
  (forall n : Z, axis_str (PyInt n) = (str_int n ++ ".")%string)
  /\ axis_str (PyInt 3) = "3."
  /\ axis_str float_three = "3.0."
  /\ split_nl (toTextFile [[(float_three, float_zero)]])
     = ["G17 G21 G90 G54"; "G00 X0. Y0."; "X3.0. Y0.0."; "Z0."; "Z1."; "X0. Y0."; "M2"].
Proof. repeat split; reflexivity. Qed.

(** ** GCodeAligner *)

Lemma coded_nl_free (o : string) : coded o -> nl_free o = true.
Proof. intros [l [[-> | ->] Hl]]; simpl; exact Hl. Qed.

(** The aligner keeps no line that begins with [G], and no empty line. *)
Lemma align_line_coded (a : aligner) (o : string) : coded o -> align_line a o = a.
Proof. intros [l [[-> | ->] _]]; reflexivity. Qed.

Lemma align_line_empty (a : aligner) : align_line a "" = a.
Proof. reflexivity. Qed.

Lemma fold_align_dropped (ls : list string) (a : aligner) :
  Forall (fun o => coded o \/ o = ""%string) ls -> fold_left align_line ls a = a.
Proof.
  induction 1 as [|o ls Ho _ IH]; [reflexivity|].
  cbn [fold_left]. destruct Ho as [Ho | ->].
  - now rewrite align_line_coded.
  - now rewrite align_line_empty.
Qed.

(** The loop of the aligner only appends, and what it appends is coded. *)
Lemma fold_align_appends (ls : list string) (a : aligner) :
  Forall (fun l => nl_free l = true) ls ->
  exists added,
    new_g_code (fold_left align_line ls a) = new_g_code a ++ added
    /\ Forall coded added.
Proof.
  intros Hls. revert a. induction Hls as [|l ls Hl _ IH]; intros a.
  - exists []. cbn [fold_left]. now rewrite app_nil_r.
  - cbn [fold_left]. destruct (IH (align_line a l)) as [added [Heq Hadded]].
    unfold align_line in Heq |- *.
    destruct (startswith l "Z0"); [|destruct (startswith l "Z1");
      [|destruct (startswith l "X")]]; cbn [new_g_code] in Heq;
      try (exists added; split; [exact Heq | exact Hadded]).
    eexists (_ :: added). split.
    + rewrite Heq, <- app_assoc. reflexivity.
    + constructor; [|exact Hadded].
      exists l. split; [|exact Hl]. destruct (pen_up a); [left | right]; reflexivity.
Qed.

(** The lines of an aligned program: the frame, the coded lines, the
    frame again and the empty piece after the last newline. *)
Lemma g_code_allignment_lines (p : string) :
  exists added,
    Forall coded added
    /\ g_code_allignment p = join_nl ("G00 X0. Y0."%string :: added ++ ["G00 X0. Y0."%string; ""%string])
    /\ split_nl (g_code_allignment p) = "G00 X0. Y0."%string :: added ++ ["G00 X0. Y0."%string; ""%string].
Proof.
  unfold g_code_allignment.
  destruct (fold_align_appends (split_nl p)
              {| pen_up := true; new_g_code := ["G00 X0. Y0."%string] |}
              (split_nl_pieces_nl_free p)) as [added [Heq Hadded]].
  exists added. rewrite Heq. cbn [new_g_code].
  assert (Hj : join_nl ((["G00 X0. Y0."%string] ++ added) ++ [("G00 X0. Y0." ++ nl)%string])
               = join_nl ("G00 X0. Y0."%string :: added ++ ["G00 X0. Y0."%string; ""%string])).
  { rewrite join_nl_trailing, <- app_assoc. reflexivity. }
  rewrite Hj. repeat split; [exact Hadded|].
  apply split_join_nl; [discriminate|].
  constructor; [reflexivity|]. apply Forall_app. split.
  - eapply Forall_impl; [exact Hadded|]. intros o Ho. now apply coded_nl_free.
  - repeat constructor.
Qed.

(** Aligning an aligned program leaves the frame alone: every line of
    the first output begins with [G] and is dropped. *)
Lemma g_code_allignment_twice_frame (p : string) :
  g_code_allignment (g_code_allignment p) = unlines ["G00 X0. Y0."%string; "G00 X0. Y0."%string].
Proof.
  destruct (g_code_allignment_lines p) as [added [Hadded [_ Hsplit]]].
  unfold g_code_allignment at 1. rewrite Hsplit.
  rewrite fold_align_dropped; [reflexivity|].
  constructor; [left; exists "X0. Y0."%string; split; [left|]; reflexivity|].
  apply Forall_app. split.
  - eapply Forall_impl; [exact Hadded|]. intros o Ho. now left.
  - constructor; [left; exists "X0. Y0."%string; split; [left|]; reflexivity|].
    constructor; [now right | constructor].
Qed.


(** C3, as stated: the aligned triangle is not the six claimed lines,
    with or without a closing newline. *)
Lemma aligned_triangle_not_six_lines :
  aligned_triangle
  <> join_nl ["G00 X0. Y0."%string; "G00 X0. Y0."%string; "G01 X1. Y0."%string;
              "G01 X1. Y1."%string; "G01 X0. Y0."%string; "G00 X0. Y0."%string]
  /\ aligned_triangle
  <> unlines ["G00 X0. Y0."%string; "G00 X0. Y0."%string; "G01 X1. Y0."%string;
              "G01 X1. Y1."%string; "G01 X0. Y0."%string; "G00 X0. Y0."%string].
Proof. split; intros H; vm_compute in H; discriminate H. Qed.

(** C3, amended. The aligned triangle is, in order: the rapid move to
    the origin of the frame, [G00 X0. Y0.], [G01 X1. Y0.], [G01 X1. Y1.],
    [G01 X0. Y0.], then two rapid moves to the origin (the return line of
    the emitter, coded [G00], and the frame), each line closed by a
    newline; no line begins with [Z] and none is [M2]. *)
Theorem g_code_allignment_triangle :
  g_code_allignment (toTextFile triangle)
  = unlines ["G00 X0. Y0."%string; "G00 X0. Y0."%string; "G01 X1. Y0."%string;
             "G01 X1. Y1."%string; "G01 X0. Y0."%string; "G00 X0. Y0."%string;
             "G00 X0. Y0."%string]
  /\ forallb (fun l => negb (startswith l "Z") && negb (String.eqb l "M2"))
       (split_nl (g_code_allignment (toTextFile triangle))) = true.
Proof. split; reflexivity. Qed.

(** C5, as stated: after a second pass the cut move [G01 X1. Y0.] of the
    aligned triangle is not there as a rapid move; it is not there at
    all. *)
Lemma realigned_triangle_loses_moves :
  In "G01 X1. Y0."%string (split_nl aligned_triangle)
  /\ ~ In "G00 X1. Y0."%string (split_nl (g_code_allignment aligned_triangle))
  /\ ~ In "G01 X1. Y0."%string (split_nl (g_code_allignment aligned_triangle)).
Proof.
  split; [vm_compute; tauto|].
  split; vm_compute; intros H; repeat (destruct H as [H|H]; [discriminate H|]); exact H.
Qed.

(** C5, amended. For every program whose aligned form holds a cut move,
    aligning that form again gives the two frame lines and nothing else:
    the positioning lines are dropped, not coded as rapid moves, and the
    second pass does not give back the first output. *)
Theorem g_code_allignment_twice (p l : string) :
  In l (split_nl (g_code_allignment p)) ->
  startswith l "G01 " = true ->
  g_code_allignment (g_code_allignment p) = unlines ["G00 X0. Y0."%string; "G00 X0. Y0."%string]
  /\ g_code_allignment (g_code_allignment p) <> g_code_allignment p.
Proof.
  intros Hin Hcut. split; [apply g_code_allignment_twice_frame|].
  rewrite g_code_allignment_twice_frame. intros Heq.
  destruct (g_code_allignment_lines p) as [added [_ [_ Hsplit]]].
  rewrite <- Heq in Hsplit, Hin.
  change (split_nl (unlines ["G00 X0. Y0."%string; "G00 X0. Y0."%string]))
    with ["G00 X0. Y0."%string; "G00 X0. Y0."%string; ""%string] in Hsplit, Hin.
  destruct Hin as [<- | [<- | [<- | []]]]; discriminate Hcut.
Qed.

(** The program of the triangle is such a program. *)
Lemma g_code_allignment_twice_witness :
  g_code_allignment (g_code_allignment (toTextFile triangle))
  = unlines ["G00 X0. Y0."%string; "G00 X0. Y0."%string]
  /\ g_code_allignment (g_code_allignment (toTextFile triangle))
     <> g_code_allignment (toTextFile triangle).
Proof.
  apply (g_code_allignment_twice (toTextFile triangle) "G01 X1. Y0.").
  - vm_compute. tauto.
  - reflexivity.
Defined.

(** ** PathSimplifier *)

(** The staircase keeps its first point and the farthest point that
    leaves every point between within [SMOOTHERR] of the line; a shape of
    two points is kept; a shape without removable points is copied. *)
Example smoothRasterCoords_staircase :
  smoothRasterCoords far_from_line_exact
    [staircase; [(0, 0); (1, 1)]; [(0, 0); (5, 5); (0, 9)]]
  = Ok [[(0, 0); (3, 1)]; [(0, 0); (1, 1)]; [(0, 0); (5, 5); (0, 9)]].
Proof. reflexivity. Qed.

Section SmoothProps.

Variable far : point -> point -> point -> bool.

Lemma canDel_ok (cs : list point) (i j : nat) :
  (i < length cs)%nat -> (j < length cs)%nat -> exists b, canDel far cs i j = Ok b.
Proof.
  intros Hi Hj. unfold canDel.
  destruct (lookup_lt_is_Some_2 cs j Hj) as [cj ->].
  destruct (lookup_lt_is_Some_2 cs i Hi) as [ci ->].
  destruct (fst cj - fst ci =? 0); eauto.
Qed.

Lemma scan_ok (cs : list point) (i j : nat) :
  (j < length cs)%nat -> exists r, scan far cs i j = Ok r.
Proof.
  induction j as [|j IH]; intros Hj; cbn [scan]; [eauto|].
  destruct (Nat.ltb_spec (i + 1) (S j)) as [Hlt|]; [|eauto].
  destruct (canDel_ok cs i (S j)) as [b ->]; [lia | lia |].
  cbn [bind]. destruct b; [eauto | apply IH; lia].
Qed.

(** Keeping the points [i] and [j] after a subsequence of the first
    [i] points gives a subsequence of the first [j + 1] points. *)
Lemma sublist_two_more (cs acc : list point) (i j : nat) (ci cj : point) :
  acc `sublist_of` take i cs -> cs !! i = Some ci -> cs !! j = Some cj ->
  (i < j)%nat -> acc ++ [ci; cj] `sublist_of` take (S j) cs.
Proof.
  intros Hacc Hi Hj Hlt.
  rewrite <- (take_drop i (take (S j) cs)).
  rewrite take_take, (Nat.min_l i (S j)) by lia.
  apply sublist_app; [exact Hacc|].
  rewrite (drop_S _ ci i) by (rewrite lookup_take_lt by lia; exact Hi).
  apply sublist_skip.
  assert (Hin : cj ∈ drop (S i) (take (S j) cs)).
  { apply list_elem_of_lookup_2 with (j - S i)%nat.
    rewrite lookup_drop, lookup_take_lt by lia.
    replace (S i + (j - S i))%nat with j by lia. exact Hj. }
  apply list_elem_of_split in Hin as (l1 & l2 & ->).
  apply sublist_inserts_l, sublist_skip, sublist_nil_l.
Qed.

Lemma sublist_take_S (cs acc : list point) (i : nat) :
  acc `sublist_of` take i cs -> acc `sublist_of` take (S i) cs.
Proof.
  intros Hacc. etransitivity; [exact Hacc|].
  replace (take i cs) with (take i (take (S i) cs))
    by (rewrite take_take; f_equal; lia).
  apply sublist_take.
Qed.

(** What the guards of the loops say, as facts for [lia]. *)
Ltac loop_facts :=
  repeat match goal with
    | Hi : (?a <? ?b)%nat = true |- _ =>
        lazymatch goal with
        | _ : (a < b)%nat |- _ => fail
        | _ => pose proof (proj1 (Nat.ltb_lt a b) Hi)
        end
    | Hj : scan _ ?cs ?i ?n = Ok (Some ?j) |- _ =>
        lazymatch goal with
        | _ : (i + 1 < j <= n)%nat |- _ => fail
        | _ => pose proof (scan_found _ cs i n j Hj)
        end
    | E : ?cs !! ?k = None |- _ =>
        lazymatch goal with
        | _ : (length cs <= k)%nat |- _ => fail
        | _ => pose proof (lookup_ge_None_1 cs k E)
        end
    end.

(** The outer loop returns, and returns a subsequence of the shape. *)
Lemma smooth_from_sublist (cs : list point) (i : nat) (acc : list point) :
  acc `sublist_of` take i cs ->
  exists out, smooth_from far cs i acc = Ok out /\ out `sublist_of` cs.
Proof.
  funelim (smooth_from far cs i acc); intros Hacc; loop_facts.
  - exists acc. split; [reflexivity|].
    etransitivity; [exact Hacc | apply sublist_take].
  - match goal with IH : _ -> exists _, _ |- _ => apply IH end.
    now apply sublist_take_S.
  - destruct (scan_ok cs i (length cs - 1)) as [r Hr]; [lia | congruence].
  - match goal with IH : _ -> exists _, _ |- _ => apply IH end.
    apply (sublist_two_more cs acc i); [assumption | assumption | assumption | lia].
  - lia.
  - lia.
Qed.

Lemma smooth_shape_sublist (cs : list point) :
  exists out, smooth_shape far cs = Ok out
    /\ out `sublist_of` cs
    /\ ((length cs <= 2)%nat -> out = cs).
Proof.
  unfold smooth_shape. destruct (Nat.leb_spec (length cs) 2) as [Hle | Hgt].
  - exists cs. repeat split. reflexivity.
  - destruct (smooth_from_sublist cs 0 []) as [out [Hout Hsub]];
      [apply sublist_nil_l|].
    exists out. repeat split; [exact Hout | exact Hsub | lia].
Qed.

Lemma fill_empty_sublist (new old : list point) :
  new `sublist_of` old -> fill_empty new old `sublist_of` old.
Proof. intros Hsub. unfold fill_empty. destruct (length new =? 0)%nat; [reflexivity | exact Hsub]. Qed.

(** C1. Whatever the distance test answers, [smoothRasterCoords]
    returns, and returns one Polyline per input Polyline: each is a
    subsequence of its input (original points only, in order, every input
    position used at most once), so not longer than it, and for an input
    of at most two points it is the input. *)
Theorem smoothRasterCoords_subsequence (coords : list (list point)) :
  exists newCoords,
    smoothRasterCoords far coords = Ok newCoords
    /\ Forall2 (fun new old =>
                  new `sublist_of` old
                  /\ (length new <= length old)%nat
                  /\ ((length old <= 2)%nat -> new = old))
         newCoords coords.
Proof.
  unfold smoothRasterCoords.
  induction coords as [|cs coords IH].
  - exists []. split; [reflexivity | constructor].
  - destruct IH as [rest [Hrest Hall]].
    destruct (mapM_result (smooth_shape far) coords) as [pass|] eqn:Hpass;
      [|discriminate Hrest].
    cbn [bind] in Hrest. injection Hrest as <-.
    destruct (smooth_shape_sublist cs) as [out [Hout [Hsub Hsmall]]].
    cbn [mapM_result]. rewrite Hout, Hpass. cbn [bind zip_with].
    eexists. split; [reflexivity|].
    constructor; [|exact Hall].
    split; [now apply fill_empty_sublist|].
    split; [now apply sublist_length, fill_empty_sublist|].
    intros Hle. rewrite (Hsmall Hle). unfold fill_empty.
    now destruct (length cs =? 0)%nat.
Qed.

End SmoothProps.

(** ** DXFPathReader *)

(** C6. [xold] and [yold] are not reset when a POLYLINE opens a shape:
    the first vertex [(1, 1)] of the second polyline equals the vertex
    captured last in the first one and is not appended; the second shape
    is left with its end point alone. *)
Theorem dxf_parse_drops_shared_vertex :
  dxf_parse float_of_decimal two_polylines
  = Ok [[(0, 0); (1, 1)]; [(2, 2)]]%Q.
Proof. reflexivity. Qed.

(** The same file through [readFromDXF], in exact arithmetic: the
    factor is [305 / 2], and the largest coordinate, [2], is scaled to
    [610 / 2], which is [IMDIM]. *)
Example readFromDXF_two_polylines :
  readFromDXF float_of_decimal two_polylines
  = Ok [[(0 # 2, 0 # 2); (305 # 2, 305 # 2)]; [(610 # 2, 610 # 2)]]%Q.
Proof. reflexivity. Qed.

(** ** Rescaling *)


(** In binary64 the path [[(0, 0), (10, 10)]] is scaled by [30.5], and
    [10 * 30.5] is [305] without rounding. *)
Example scale_float_0_10 :
  scale [[(0%float, 0%float); (10%float, 10%float)]]
  = Ok [[(0%float, 0%float); (305%float, 305%float)]].
Proof. vm_compute. reflexivity. Qed.

(** A path with non-negative coordinates and a positive size that
    [scale] takes out of every box: the size is the smallest positive
    float, the factor [305 / size] overflows to infinity, and the scaled
    coordinates are [nan], from [0 * inf], and infinity. *)
Example scale_float_tiny :
  bounding_size [[(0%float, 0%float); (0x1p-1074%float, 0x1p-1074%float)]]
  = Ok 0x1p-1074%float
  /\ PrimFloat.ltb 0%float 0x1p-1074%float = true
  /\ scale [[(0%float, 0%float); (0x1p-1074%float, 0x1p-1074%float)]]
     = Ok [[(nan, nan); (infinity, infinity)]].
Proof. repeat split; vm_compute; reflexivity. Qed.

(** The integers that primitive integers hold are converted alike by
    [of_int] and by the primitive conversion. *)
Lemma of_int_uint63 (z : Z) :
  0 <= z < Uint63.wB -> of_int z = PrimFloat.of_uint63 (Uint63.of_Z z).
Proof.
  intros Hz. cbn [of_int float_arith].
  rewrite <- (SF2Prim_Prim2SF (PrimFloat.of_uint63 (Uint63.of_Z z))).
  now rewrite of_uint63_spec, Uint63.of_Z_spec, Z.mod_small by exact Hz.
Qed.

Lemma whole_floats_In (n : nat) (z : Z) :
  0 <= z < Z.of_nat n -> In (z, of_int z) (whole_floats n).
Proof.
  intros Hz. unfold whole_floats. apply in_map_iff. exists (Z.to_nat z).
  rewrite Z2Nat.id by lia. split; [reflexivity|]. apply in_seq. lia.
Qed.

Lemma order_table_ok (n : nat) (a b : Z) :
  order_table n = true ->
  0 <= a < Z.of_nat n -> 0 <= b < Z.of_nat n ->
  PrimFloat.ltb (of_int a) (of_int b) = (a <? b).
Proof.
  intros Ht Ha Hb. unfold order_table in Ht. rewrite forallb_forall in Ht.
  specialize (Ht _ (whole_floats_In n a Ha)). rewrite forallb_forall in Ht.
  specialize (Ht _ (whole_floats_In n b Hb)). now apply Bool.eqb_prop in Ht.
Qed.

Lemma sum_table_ok (n : nat) (a b : Z) :
  sum_table n = true ->
  0 <= a < Z.of_nat n -> 0 <= b < Z.of_nat n -> Z.of_nat n < 2 ^ 62 ->
  PrimFloat.add (of_int a) (of_int b) = of_int (a + b).
Proof.
  intros Ht Ha Hb Hn. unfold sum_table in Ht. rewrite forallb_forall in Ht.
  specialize (Ht _ (whole_floats_In n a Ha)). rewrite forallb_forall in Ht.
  specialize (Ht _ (whole_floats_In n b Hb)). cbn [fst snd] in Ht.
  apply FloatAxioms.Leibniz.eqb_spec in Ht. rewrite Ht. symmetry. apply of_int_uint63.
  change Uint63.wB with (2 ^ 63). lia.
Qed.

Lemma zero_table_ok (n : nat) (s : Z) :
  zero_table n = true -> 0 <= s < Z.of_nat n ->
  PrimFloat.eqb (of_int s) 0%float = (s =? 0)
  /\ PrimFloat.ltb 0%float (of_int s) = (0 <? s).
Proof.
  intros Ht Hs. unfold zero_table in Ht. rewrite forallb_forall in Ht.
  specialize (Ht _ (whole_floats_In n s Hs)). cbn [fst snd] in Ht.
  apply andb_prop in Ht as [H1 H2]. split; now apply Bool.eqb_prop.
Qed.


Lemma order_table_WHOLE : order_table 1001 = true.
Proof. vm_compute. reflexivity. Qed.

Lemma sum_table_WHOLE : sum_table 1001 = true.
Proof. vm_compute. reflexivity. Qed.

Lemma zero_table_WHOLE : zero_table 2002 = true.
Proof. vm_compute. reflexivity. Qed.



(** Lists of integers that a map into the floats keeps in order. *)
Section Embedding.

Variable g : Z -> float.
Variable K : Z.
Hypothesis g_lt :
  forall a b, 0 <= a <= K -> 0 <= b <= K -> PrimFloat.ltb (g a) (g b) = (a <? b).


Lemma py_max2_embed (a b : Z) :
  0 <= a <= K -> 0 <= b <= K -> py_max2 (g a) (g b) = g (Z.max a b).
Proof.
  intros Ha Hb. unfold py_max2. cbn [flt float_arith]. rewrite (g_lt a b Ha Hb).
  destruct (a <? b) eqn:E.
  - apply Z.ltb_lt in E. now rewrite Z.max_r by lia.
  - apply Z.ltb_ge in E. now rewrite Z.max_l by lia.
Qed.

Lemma py_min2_embed (a b : Z) :
  0 <= a <= K -> 0 <= b <= K -> py_min2 (g a) (g b) = g (Z.min a b).
Proof.
  intros Ha Hb. unfold py_min2. cbn [flt float_arith]. rewrite (g_lt b a Hb Ha).
  destruct (b <? a) eqn:E.
  - apply Z.ltb_lt in E. now rewrite Z.min_r by lia.
  - apply Z.ltb_ge in E. now rewrite Z.min_l by lia.
Qed.

(** [max] of the mapped list is the map of the greatest integer. *)
Lemma py_max_embed (l : list Z) :
  l <> [] -> Forall (fun x => 0 <= x <= K) l ->
  exists M, py_max (map g l) = Ok (g M) /\ In M l /\ Forall (fun x => x <= M) l.
Proof.
  destruct l as [|a l]; [congruence|]. intros _ Hl.
  inversion Hl as [|? ? Ha Hl']; subst. clear Hl. cbn [map py_max].
  enough (G : forall a, 0 <= a <= K ->
            exists M, fold_left py_max2 (map g l) (g a) = g M
                      /\ (M = a \/ In M l) /\ a <= M /\ Forall (fun x => x <= M) l).
  { destruct (G a Ha) as (M & -> & Hin & Hge & Hall). exists M.
    split; [reflexivity|]. split; [destruct Hin; [left; congruence | now right]|].
    now constructor. }
  clear a Ha. induction l as [|b l IH]; intros a Ha; cbn [map fold_left].
  - exists a. repeat split; [now left | lia | constructor].
  - inversion Hl' as [|? ? Hb Hl'']; subst.
    rewrite (py_max2_embed a b Ha Hb).
    destruct (IH Hl'' (Z.max a b) ltac:(lia)) as (M & -> & Hin & Hge & Hall).
    exists M. split; [reflexivity|]. split; [|split; [lia|constructor; [lia|exact Hall]]].
    destruct Hin as [-> | Hin]; [|right; now right].
    destruct (Z.max_spec a b) as [[_ ->] | [_ ->]]; [right; now left | now left].
Qed.

(** [min] of the mapped list is the map of the least integer. *)
Lemma py_min_embed (l : list Z) :
  l <> [] -> Forall (fun x => 0 <= x <= K) l ->
  exists m, py_min (map g l) = Ok (g m) /\ In m l /\ Forall (fun x => m <= x) l.
Proof.
  destruct l as [|a l]; [congruence|]. intros _ Hl.
  inversion Hl as [|? ? Ha Hl']; subst. clear Hl. cbn [map py_min].
  enough (G : forall a, 0 <= a <= K ->
            exists m, fold_left py_min2 (map g l) (g a) = g m
                      /\ (m = a \/ In m l) /\ m <= a /\ Forall (fun x => m <= x) l).
  { destruct (G a Ha) as (m & -> & Hin & Hge & Hall). exists m.
    split; [reflexivity|]. split; [destruct Hin; [left; congruence | now right]|].
    now constructor. }
  clear a Ha. induction l as [|b l IH]; intros a Ha; cbn [map fold_left].
  - exists a. repeat split; [now left | lia | constructor].
  - inversion Hl' as [|? ? Hb Hl'']; subst.
    rewrite (py_min2_embed a b Ha Hb).
    destruct (IH Hl'' (Z.min a b) ltac:(lia)) as (m & -> & Hin & Hge & Hall).
    exists m. split; [reflexivity|]. split; [|split; [lia|constructor; [lia|exact Hall]]].
    destruct Hin as [-> | Hin]; [|right; now right].
    destruct (Z.min_spec a b) as [[_ ->] | [_ ->]]; [now left | right; now left].
Qed.

End Embedding.

Lemma whole_lt (a b : Z) :
  0 <= a <= WHOLE_MAX -> 0 <= b <= WHOLE_MAX ->
  PrimFloat.ltb (of_int a) (of_int b) = (a <? b).
Proof.
  unfold WHOLE_MAX. intros Ha Hb.
  apply (order_table_ok 1001); [exact order_table_WHOLE | lia | lia].
Qed.



Lemma concat_whole_path (zp : list (list (Z * Z))) :
  concat (whole_path zp) = map (fun c => (of_int (fst c), of_int (snd c))) (concat zp).
Proof. unfold whole_path. symmetry. apply concat_map. Qed.

(** The extremes that [scale] finds in a whole drawing are the floats
    of the extremes of its integers, and its size is the float of their
    sum. *)
Lemma bounding_size_whole (zp : list (list (Z * Z))) :
  concat zp <> [] ->
  Forall (fun c => 0 <= fst c <= WHOLE_MAX /\ 0 <= snd c <= WHOLE_MAX) (concat zp) ->
  exists Mx My mx my,
    py_max (map fst (concat (whole_path zp))) = Ok (of_int Mx)
    /\ py_max (map snd (concat (whole_path zp))) = Ok (of_int My)
    /\ py_min (map fst (concat (whole_path zp))) = Ok (of_int mx)
    /\ py_min (map snd (concat (whole_path zp))) = Ok (of_int my)
    /\ (In Mx (map fst (concat zp)) /\ In My (map snd (concat zp))
        /\ In mx (map fst (concat zp)) /\ In my (map snd (concat zp)))
    /\ Forall (fun c => mx <= fst c <= Mx /\ my <= snd c <= My) (concat zp)
    /\ bounding_size (whole_path zp) = Ok (of_int (Z.max Mx My + Z.min mx my)).
Proof.
  intros Hne Hall.
  assert (Hxs : Forall (fun x => 0 <= x <= WHOLE_MAX) (map fst (concat zp))).
  { apply List.Forall_forall. intros x (c & <- & Hc)%in_map_iff.
    rewrite List.Forall_forall in Hall. now apply Hall. }
  assert (Hys : Forall (fun x => 0 <= x <= WHOLE_MAX) (map snd (concat zp))).
  { apply List.Forall_forall. intros x (c & <- & Hc)%in_map_iff.
    rewrite List.Forall_forall in Hall. now apply Hall. }
  assert (Hxne : map fst (concat zp) <> []) by (destruct (concat zp); [congruence | discriminate]).
  assert (Hyne : map snd (concat zp) <> []) by (destruct (concat zp); [congruence | discriminate]).
  assert (Ex : map fst (concat (whole_path zp)) = map of_int (map fst (concat zp))).
  { rewrite concat_whole_path, !map_map. reflexivity. }
  assert (Ey : map snd (concat (whole_path zp)) = map of_int (map snd (concat zp))).
  { rewrite concat_whole_path, !map_map. reflexivity. }
  destruct (py_max_embed of_int WHOLE_MAX whole_lt _ Hxne Hxs) as (Mx & HMx & HinMx & HgeMx).
  destruct (py_max_embed of_int WHOLE_MAX whole_lt _ Hyne Hys) as (My & HMy & HinMy & HgeMy).
  destruct (py_min_embed of_int WHOLE_MAX whole_lt _ Hxne Hxs) as (mx & Hmx & Hinmx & Hlemx).
  destruct (py_min_embed of_int WHOLE_MAX whole_lt _ Hyne Hys) as (my & Hmy & Hinmy & Hlemy).
  exists Mx, My, mx, my. rewrite Ex, Ey.
  rewrite List.Forall_forall in Hxs, Hys, HgeMx, HgeMy, Hlemx, Hlemy.
  pose proof (Hxs _ HinMx) as RMx. pose proof (Hys _ HinMy) as RMy.
  pose proof (Hxs _ Hinmx) as Rmx. pose proof (Hys _ Hinmy) as Rmy.
  repeat (split; [assumption|]). split; [repeat split; assumption|]. split.
  - apply List.Forall_forall. intros c Hc.
    pose proof (in_map fst _ _ Hc) as Hcx. pose proof (in_map snd _ _ Hc) as Hcy.
    pose proof (HgeMx _ Hcx). pose proof (HgeMy _ Hcy).
    pose proof (Hlemx _ Hcx). pose proof (Hlemy _ Hcy). lia.
  - unfold bounding_size. rewrite Ex, Ey, HMx, HMy, Hmx, Hmy. cbn [bind].
    rewrite (py_max2_embed of_int WHOLE_MAX whole_lt Mx My RMx RMy).
    rewrite (py_min2_embed of_int WHOLE_MAX whole_lt mx my Rmx Rmy).
    f_equal. cbn [fadd float_arith].
    apply (sum_table_ok 1001); [exact sum_table_WHOLE | unfold WHOLE_MAX in *; lia ..].
Qed.

(** [scale] on a whole drawing of size [s]. *)
Lemma scale_whole (zp : list (list (Z * Z))) (s : Z) :
  0 <= s <= 2 * WHOLE_MAX ->
  bounding_size (whole_path zp) = Ok (of_int s) ->
  scale (whole_path zp)
  = if s =? 0 then Raise ZeroDivisionError
    else Ok (map (map (fun c => (scaled (of_int s) (fst c), scaled (of_int s) (snd c))))
               (whole_path zp)).
Proof.
  intros Hs Hsize. unfold scale. rewrite Hsize. cbn [bind fdiv float_arith].
  destruct (zero_table_ok 2002 s zero_table_WHOLE) as [-> _];
    [unfold WHOLE_MAX in Hs; lia|].
  now destruct (s =? 0).
Qed.




(** The float after [IMDIM] is reached on whole drawings too: [277] in a
    drawing of size [277] is scaled to [305.00000000000006]. *)
Example scale_float_277 :
  scale (whole_path [[(0, 0); (277, 277)]])
  = Ok [[(0%float, 0%float); (above_IMDIM, above_IMDIM)]]
  /\ PrimFloat.ltb (of_int IMDIM) above_IMDIM = true.
Proof. split; vm_compute; reflexivity. Qed.

(** ** RasterContourTracer *)

Lemma is_dark_white (p : point) : is_dark white_image p = false.
Proof. reflexivity. Qed.

Lemma direction_cases (d : Z) : 0 <= d < 4 -> d = 0 \/ d = 1 \/ d = 2 \/ d = 3.
Proof. lia. Qed.

(** Turning right three times after a step walks round a square of four
    pixels and comes back. *)
Lemma probe_square (d : Z) (px : point) :
  0 <= d < 4 ->
  exists q1 q2 q3,
    ahead d px = Some q1
    /\ ahead ((d + 1) mod 4) q1 = Some q2
    /\ ahead (((d + 1) mod 4 + 1) mod 4) q2 = Some q3
    /\ ahead ((((d + 1) mod 4 + 1) mod 4 + 1) mod 4) q3 = Some px.
Proof.
  intros Hd. destruct px as [x y].
  destruct (direction_cases d Hd) as [-> | [-> | [-> | ->]]];
    do 3 eexists; repeat split; try reflexivity;
    unfold ahead; cbn; f_equal; f_equal; lia.
Qed.

(** On an image without a dark pixel the probe step never commits:
    whatever the depth allowed, it ends in RecursionError. *)
Lemma nextPixelInShape_white (depth : nat) (px : point) (t : tracer) :
  nextPixelInShape depth white_image px t = Raise RecursionError.
Proof.
  revert px t. induction depth as [|depth IH]; intros px t; [reflexivity|].
  cbn [nextPixelInShape]. rewrite is_dark_white.
  pose proof (Z.mod_pos_bound (direc t + 1) 4 eq_refl) as Hd.
  destruct (probe_square _ px Hd) as (q & _ & _ & -> & _).
  rewrite is_dark_white. apply IH.
Qed.

(** C8, as stated: on the white image no depth is enough; the probing
    ends in RecursionError, never in a committed pixel. *)
Lemma nextPixelInShape_white_unbounded :
  ~ exists depth,
      nextPixelInShape depth white_image (0, 0) {| direc := 0; done := [] |}
      <> Raise RecursionError.
Proof. intros [depth H]. apply H, nextPixelInShape_white. Qed.

(** C8, amended. The probe step has no bound of its own and no stalled
    outcome; called on a dark pixel, as the tracer calls it, it commits a
    dark pixel within four calls, since the fourth probe is the pixel it
    started from. *)
Theorem nextPixelInShape_dark_start (im : image) (px : point) (t : tracer) (depth : nat) :
  is_dark im px = true -> (4 <= depth)%nat ->
  exists q t',
    nextPixelInShape depth im px t = Ok (q, t')
    /\ nextPixelInShape 4 im px t = Ok (q, t')
    /\ is_dark im q = true.
Proof.
  intros Hpx Hdepth.
  do 4 (destruct depth as [|depth]; [lia|]). clear Hdepth.
  pose proof (Z.mod_pos_bound (direc t - 1) 4 eq_refl) as Hd.
  destruct (probe_square _ px Hd) as (q1 & q2 & q3 & H1 & H2 & H3 & H4).
  cbn [nextPixelInShape]. rewrite Hpx, H1.
  destruct (is_dark im q1) eqn:D1; [eauto 6|].
  cbn [direc done]. rewrite H2.
  destruct (is_dark im q2) eqn:D2; [eauto 6|].
  rewrite H3.
  destruct (is_dark im q3) eqn:D3; [eauto 6|].
  rewrite H4, Hpx. eauto 6.
Qed.

(** The dark pixel of [one_dark_pixel], under the recursion limit of the
    source. *)
Lemma nextPixelInShape_dark_start_witness :
  exists q t',
    nextPixelInShape (100 * 100) one_dark_pixel (5, 5) {| direc := 0; done := [] |} = Ok (q, t')
    /\ nextPixelInShape 4 one_dark_pixel (5, 5) {| direc := 0; done := [] |} = Ok (q, t')
    /\ is_dark one_dark_pixel q = true.
Proof.
  apply (nextPixelInShape_dark_start one_dark_pixel (5, 5) {| direc := 0; done := [] |} (100 * 100)).
  - reflexivity.
  - apply Nat.leb_le. vm_compute. reflexivity.
Defined.

(** ** Dispatch *)

(** C9, as stated: a file named [drawing.txt] is not rejected; the
    dispatch returns the placeholder shape. *)
Lemma imToPaths_txt_placeholder :
  imToPaths no_file no_file "drawing.txt" = Ok [[(PyInt 0, PyInt 0)]].
Proof. reflexivity. Qed.

(** C9, amended. For a file name that ends in none of [.jpg], [.jpeg],
    [.png], [.bmp] and [.dxf], the dispatch calls no reader and raises
    nothing: it returns the placeholder ShapeList [[(0, 0)]]. *)
Theorem imToPaths_unknown_extension
  (readFromRaster readFromDXF_file : string -> result (list shape)) (filename : string) :
  existsb (endswith filename) [".jpg"; ".jpeg"; ".png"; ".bmp"; ".dxf"]%string = false ->
  imToPaths readFromRaster readFromDXF_file filename = Ok [[(PyInt 0, PyInt 0)]].
Proof.
  intros H. unfold imToPaths. cbn [existsb] in H |- *.
  repeat (apply orb_false_elim in H as [? H]).
  repeat match goal with E : endswith _ _ = false |- _ => rewrite E; clear E end.
  reflexivity.
Qed.

(** [drawing.txt] is such a file name. *)
Lemma imToPaths_unknown_extension_witness :
  imToPaths no_file no_file "drawing.txt" = Ok [[(PyInt 0, PyInt 0)]].
Proof. apply (imToPaths_unknown_extension no_file no_file "drawing.txt"). reflexivity. Defined.

(** * Further properties *)

(** ** Points *)

Lemma point_eqb_eq (p q : point) : point_eqb p q = true <-> p = q.
Proof.
  destruct p as [a b], q as [c d]. unfold point_eqb. cbn [fst snd].
  rewrite andb_true_iff, !Z.eqb_eq. split; [intros [-> ->]; reflexivity|].
  intros [= -> ->]. split; reflexivity.
Qed.

Lemma point_eqb_refl (p : point) : point_eqb p p = true.
Proof. now apply point_eqb_eq. Qed.

Lemma mem_point_In (p : point) (l : list point) : mem_point p l = true <-> In p l.
Proof.
  unfold mem_point. rewrite existsb_exists. split.
  - intros [q [Hq E]]. apply point_eqb_eq in E. now subst.
  - intros Hp. exists p. split; [exact Hp | apply point_eqb_refl].
Qed.

(** ** The probe step keeps the visited list *)

Lemma ahead_direction (d : Z) (px q : point) : ahead d px = Some q -> 0 <= d < 4.
Proof.
  unfold ahead.
  destruct (Z.eqb_spec d 0); [lia|]. destruct (Z.eqb_spec d 1); [lia|].
  destruct (Z.eqb_spec d 2); [lia|]. destruct (Z.eqb_spec d 3); [lia|]. discriminate.
Qed.

Lemma nextPixelInShape_dark (depth : nat) (im : image) (px q : point) (t t' : tracer) :
  nextPixelInShape depth im px t = Ok (q, t') -> is_dark im q = true.
Proof.
  revert px t. induction depth as [|depth IH]; intros px t; cbn [nextPixelInShape];
    [discriminate|].
  destruct (ahead _ px) as [n|]; [|discriminate].
  destruct (is_dark im n) eqn:Hdark; [now intros [= <- <-] | apply IH].
Qed.

(** Whatever pixel it starts from, when [nextPixelInShape] returns, the
    pixel it returns is dark and is in [done]; [done] kept what it had
    and gained at most that pixel; [direc] is one of the four directions. *)
Theorem nextPixelInShape_commits (depth : nat) (im : image) (px q : point) (t t' : tracer) :
  nextPixelInShape depth im px t = Ok (q, t') ->
  is_dark im q = true
  /\ In q (done t')
  /\ (done t' = done t \/ done t' = done t ++ [q])
  /\ 0 <= direc t' < 4.
Proof.
  revert px t. induction depth as [|depth IH]; intros px t; cbn [nextPixelInShape];
    [discriminate|].
  set (d := if is_dark im px then (direc t - 1) mod 4 else (direc t + 1) mod 4).
  destruct (ahead d px) as [n|] eqn:Hn; [|discriminate].
  destruct (is_dark im n) eqn:Hdark.
  - intros [= <- <-]. cbn [done direc].
    split; [exact Hdark|]. split; [|split].
    + destruct (mem_point n (done t)) eqn:Hm; [now apply mem_point_In|].
      apply in_or_app. right. now left.
    + destruct (mem_point n (done t)); [now left | now right].
    + exact (ahead_direction _ _ _ Hn).
  - intros H. apply IH in H. exact H.
Qed.

Lemma nextPixelInShape_commits_witness :
  is_dark one_dark_pixel (5, 5) = true
  /\ In (5, 5) (done {| direc := 2; done := [(5, 5)] |})
  /\ (done {| direc := 2; done := [(5, 5)] |} = done {| direc := 0; done := [] |}
      \/ done {| direc := 2; done := [(5, 5)] |} = done {| direc := 0; done := [] |} ++ [(5, 5)])
  /\ 0 <= direc {| direc := 2; done := [(5, 5)] |} < 4.
Proof.
  apply (nextPixelInShape_commits 4 one_dark_pixel (5, 5) (5, 5) {| direc := 0; done := [] |}).
  reflexivity.
Defined.

(** ** [isOnEdge] *)

Lemma isOnEdge_iff (im : image) (px : point) :
  isOnEdge im px = true <-> exists n, In n (neighbours px) /\ 381 < pixel_sum im n.
Proof.
  unfold isOnEdge, neighbours. cbn [sum fold_left Z.add]. rewrite Z.ltb_lt. split.
  - intros H.
    destruct (Z.max_spec (Z.max (Z.max (pixel_sum im (fst px - 1, snd px))
                                       (pixel_sum im (fst px, snd px - 1)))
                                (pixel_sum im (fst px + 1, snd px)))
                         (pixel_sum im (fst px, snd px + 1))) as [[_ E] | [_ E]];
      rewrite E in H; [eexists; split; [|exact H]; cbn; tauto|].
    destruct (Z.max_spec (Z.max (pixel_sum im (fst px - 1, snd px))
                                (pixel_sum im (fst px, snd px - 1)))
                         (pixel_sum im (fst px + 1, snd px))) as [[_ E'] | [_ E']];
      rewrite E' in H; [eexists; split; [|exact H]; cbn; tauto|].
    destruct (Z.max_spec (pixel_sum im (fst px - 1, snd px))
                         (pixel_sum im (fst px, snd px - 1))) as [[_ E''] | [_ E'']];
      rewrite E'' in H; eexists; (split; [|exact H]); cbn; tauto.
  - intros [n [Hn Hlt]]. cbn [In] in Hn.
    destruct Hn as [<- | [<- | [<- | [<- | []]]]]; lia.
Qed.

(** [isOnEdge] holds exactly when one of the four neighbours has a
    channel sum above 381, a neighbour whose lookup raises IndexError
    counting as white.  So a pixel whose four lookups give dark pixels is
    not on the edge, wherever the image reads them from; a pixel with a
    neighbour whose lookup raises is; and a neighbour whose sum is
    exactly 381, which the tracer does not take for dark, does not put a
    pixel on the edge.  Which coordinates raise is the image's matter:
    [im] is any lookup. *)
Theorem isOnEdge_neighbours (im : image) (px : point) :
  (isOnEdge im px = true <-> exists n, In n (neighbours px) /\ 381 < pixel_sum im n)
  /\ ((forall n, In n (neighbours px) -> is_dark im n = true) -> isOnEdge im px = false)
  /\ ((exists n, In n (neighbours px) /\ im n = None) -> isOnEdge im px = true)
  /\ ((forall n, In n (neighbours px) -> pixel_sum im n = 381) ->
      isOnEdge im px = false /\ forall n, In n (neighbours px) -> is_dark im n = false).
Proof.
  pose proof (isOnEdge_iff im px) as Hiff.
  split; [exact Hiff|]. split; [|split].
  - intros Hall. apply not_true_is_false. intros E.
    apply Hiff in E as [n [Hn Hlt]]. specialize (Hall n Hn).
    unfold is_dark in Hall. cbn [sum fold_left Z.add] in Hall. apply Z.ltb_lt in Hall. lia.
  - intros [n [Hn Hnone]]. apply Hiff. exists n. split; [exact Hn|].
    unfold pixel_sum. rewrite Hnone. reflexivity.
  - intros Hall. split.
    + apply not_true_is_false. intros E.
      apply Hiff in E as [n [Hn Hlt]]. specialize (Hall n Hn). lia.
    + intros n Hn. unfold is_dark. rewrite (Hall n Hn). reflexivity.
Qed.

(** ** [nextShape] *)

Lemma nextShape_from_spec (ps : list point) (im : image) (t : tracer) (p : point) (t' : tracer) :
  nextShape_from ps im t = Ok (p, t') ->
  (p = (-1, -1) /\ t' = t /\ Forall (fun q => is_start im (done t) q = Ok false) ps)
  \/ (exists before after,
        ps = before ++ p :: after
        /\ Forall (fun q => is_start im (done t) q = Ok false) before
        /\ is_start im (done t) p = Ok true
        /\ t' = {| direc := direc t; done := done t ++ [p] |}).
Proof.
  induction ps as [|a ps IH]; cbn [nextShape_from].
  - intros [= <- <-]. left. repeat split. constructor.
  - destruct (is_start im (done t) a) as [[|]|] eqn:Ha; cbn [bind]; [| |discriminate].
    + intros [= <- <-]. right. exists [], ps. repeat split; [constructor | exact Ha].
    + intros H. destruct (IH H) as [(-> & -> & Hall) | (before & after & -> & Hb & Hp & ->)].
      * left. repeat split. now constructor.
      * right. exists (a :: before), after. repeat split; [now constructor | exact Hp].
Qed.

Lemma in_range (n x : Z) : In x (range n) <-> 0 <= x < n.
Proof.
  unfold range. rewrite in_map_iff. split.
  - intros [k [<- Hk]]. apply in_seq in Hk. lia.
  - intros Hx. exists (Z.to_nat x). split; [lia|]. apply in_seq. lia.
Qed.

Lemma in_scan_order (p : point) :
  In p scan_order <-> 0 <= fst p < IMDIM /\ 0 <= snd p < IMDIM.
Proof.
  unfold scan_order. rewrite in_flat_map. split.
  - intros [x [Hx Hp]]. apply in_map_iff in Hp as [y [<- Hy]].
    apply in_range in Hx, Hy. cbn [fst snd]. split; assumption.
  - intros [Hx Hy]. exists (fst p). split; [now apply in_range|].
    apply in_map_iff. exists (snd p). split; [now destruct p | now apply in_range].
Qed.

Lemma is_start_true (im : image) (visited : list point) (p : point) :
  is_start im visited p = Ok true ->
  is_dark im p = true /\ isOnEdge im p = true /\ ~ In p visited.
Proof.
  unfold is_start, is_dark, pixel_sum. destruct (im p) as [ch|]; [|discriminate].
  intros [= H]. apply andb_prop in H as [H Hv]. apply andb_prop in H as [Hd He].
  repeat split; [exact Hd | exact He|].
  intros Hin. apply mem_point_In in Hin. rewrite Hin in Hv. discriminate.
Qed.

(** When [nextShape] returns the sentinel, [done] is as it was and no
    coordinate of the grid is a dark, unvisited edge pixel.  When it
    returns a coordinate, that coordinate is in the grid, dark, on the
    edge and was not in [done]; it is appended to [done], and some
    neighbour of it is not dark. *)
Theorem nextShape_spec (im : image) (t : tracer) (p : point) (t' : tracer) :
  nextShape im t = Ok (p, t') ->
  (p = (-1, -1) /\ t' = t
   /\ forall q, In q scan_order -> is_start im (done t) q = Ok false)
  \/ (0 <= fst p < IMDIM /\ 0 <= snd p < IMDIM
      /\ is_dark im p = true /\ isOnEdge im p = true /\ ~ In p (done t)
      /\ t' = {| direc := direc t; done := done t ++ [p] |}
      /\ exists n, In n (neighbours p) /\ is_dark im n = false).
Proof.
  intros H. apply nextShape_from_spec in H
    as [(-> & -> & Hall) | (before & after & Hps & _ & Hp & ->)].
  - left. repeat split. now apply List.Forall_forall.
  - right. assert (Hin : In p scan_order) by (rewrite Hps; apply in_or_app; right; now left).
    apply in_scan_order in Hin as [Hx Hy].
    apply is_start_true in Hp as (Hd & He & Hv).
    repeat split; try assumption; try lia.
    apply isOnEdge_iff in He as [n [Hn Hlt]]. exists n. split; [exact Hn|].
    unfold is_dark. cbn [sum fold_left Z.add]. apply Z.ltb_ge. lia.
Qed.

Lemma nextShape_spec_witness :
  ((10, 10) = (-1, -1) /\ {| direc := 0; done := [(10, 10)] |} = {| direc := 0; done := [] |}
   /\ forall q, In q scan_order -> is_start dark_square (done {| direc := 0; done := [] |}) q = Ok false)
  \/ (0 <= fst (10, 10) < IMDIM /\ 0 <= snd (10, 10) < IMDIM
      /\ is_dark dark_square (10, 10) = true /\ isOnEdge dark_square (10, 10) = true
      /\ ~ In (10, 10) (done {| direc := 0; done := [] |})
      /\ {| direc := 0; done := [(10, 10)] |}
         = {| direc := direc {| direc := 0; done := [] |};
              done := done {| direc := 0; done := [] |} ++ [(10, 10)] |}
      /\ exists n, In n (neighbours (10, 10)) /\ is_dark dark_square n = false).
Proof.
  apply (nextShape_spec dark_square {| direc := 0; done := [] |} (10, 10)
           {| direc := 0; done := [(10, 10)] |}).
  vm_compute. reflexivity.
Defined.

(** ** ShapeCloser *)

Lemma close_shape_spec (sh out : list point) :
  close_shape sh = Ok out ->
  closed out /\ (closed sh -> out = sh) /\ (out = sh \/ exists c rest, sh = c :: rest /\ out = sh ++ [c]).
Proof.
  unfold close_shape. destruct (last sh) as [l|] eqn:Hl; [|discriminate].
  destruct sh as [|c rest]; [discriminate|].
  destruct (point_eqb l c) eqn:E; intros [= <-].
  - apply point_eqb_eq in E. subst l. repeat split; [|now left].
    exists c, rest. split; [reflexivity | exact Hl].
  - split; [|split].
    + exists c, (rest ++ [c]). split; [reflexivity|].
      change (c :: rest ++ [c]) with ((c :: rest) ++ [c]). apply last_snoc.
    + intros (c' & rest' & [= <- <-] & Hlast). rewrite Hlast in Hl.
      injection Hl as <-. rewrite point_eqb_refl in E. discriminate.
    + right. exists c, rest. split; reflexivity.
Qed.

Lemma close_shape_closed (sh : list point) : closed sh -> close_shape sh = Ok sh.
Proof.
  intros (c & rest & -> & Hl). unfold close_shape. rewrite Hl.
  now rewrite point_eqb_refl.
Qed.

Lemma close_shape_cons (c : point) (rest : list point) :
  exists out, close_shape (c :: rest) = Ok out.
Proof.
  unfold close_shape. destruct (last (c :: rest)) as [l|] eqn:E.
  - eauto.
  - apply last_None in E. discriminate.
Qed.

(** The closing loop raises IndexError exactly when some shape is empty.
    Otherwise every shape it returns ends on its first point, and is the
    input shape, or the input shape with its first point appended. *)
Theorem close_shapes_spec (shapeList : list (list point)) :
  (In [] shapeList -> close_shapes shapeList = Raise IndexError)
  /\ (~ In [] shapeList ->
      exists out,
        close_shapes shapeList = Ok out
        /\ Forall2 (fun o sh => closed o
                     /\ (o = sh \/ exists c rest, sh = c :: rest /\ o = sh ++ [c]))
             out shapeList).
Proof.
  unfold close_shapes. induction shapeList as [|sh l [IHe IHo]].
  - split; [intros []|]. intros _. exists []. split; [reflexivity | constructor].
  - cbn [mapM_result]. destruct sh as [|c rest].
    + split; [reflexivity|]. intros Hno. exfalso. apply Hno. now left.
    + destruct (close_shape_cons c rest) as [o Ho]. rewrite Ho. cbn [bind]. split.
      * intros [Hc | Hin]; [discriminate|]. now rewrite (IHe Hin).
      * intros Hno. destruct IHo as [out [Hout Hall]]; [intros Hin; apply Hno; now right|].
        rewrite Hout. cbn [bind]. eexists. split; [reflexivity|].
        constructor; [|exact Hall]. apply close_shape_spec in Ho as (Hc & _ & Hor).
        split; assumption.
Qed.

(** Closing is idempotent: what the closing loop returns, it returns
    again unchanged. *)
Theorem close_shapes_idempotent (shapeList out : list (list point)) :
  close_shapes shapeList = Ok out -> close_shapes out = Ok out.
Proof.
  unfold close_shapes. revert out. induction shapeList as [|sh l IH]; intros out.
  - intros [= <-]. reflexivity.
  - cbn [mapM_result]. destruct (close_shape sh) as [o|] eqn:Ho; [|discriminate].
    destruct (mapM_result close_shape l) as [os|] eqn:Hos; [|discriminate].
    cbn [bind]. intros [= <-]. cbn [mapM_result].
    apply close_shape_spec in Ho as (Hc & _ & _).
    rewrite (close_shape_closed o Hc), (IH os eq_refl). reflexivity.
Qed.

Lemma close_shapes_idempotent_witness :
  close_shapes [[(0, 0); (1, 0); (1, 1); (0, 0)]; [(4, 4); (5, 4); (4, 4)]]
  = Ok [[(0, 0); (1, 0); (1, 1); (0, 0)]; [(4, 4); (5, 4); (4, 4)]].
Proof.
  apply (close_shapes_idempotent [[(0, 0); (1, 0); (1, 1)]; [(4, 4); (5, 4)]]).
  reflexivity.
Defined.

(** ** More on the PathSimplifier *)

Section SmoothMore.

Variable far : point -> point -> point -> bool.

(** The guards of the loops, as facts for [lia]. *)
Ltac guard_facts :=
  repeat match goal with
    | Hi : (?a <? ?b)%nat = true |- _ =>
        lazymatch goal with
        | _ : (a < b)%nat |- _ => fail
        | _ => pose proof (proj1 (Nat.ltb_lt a b) Hi)
        end
    | Hi : (?a <? ?b)%nat = false |- _ =>
        lazymatch goal with
        | _ : (b <= a)%nat |- _ => fail
        | _ => pose proof (proj1 (Nat.ltb_ge a b) Hi)
        end
    end.

(** Past the last index the outer loop tests, it returns what it has. *)
Lemma smooth_from_end (cs : list point) (i : nat) (acc : list point) :
  (length cs - 2 <= i)%nat -> smooth_from far cs i acc = Ok acc.
Proof.
  funelim (smooth_from far cs i acc); intros Hi'; guard_facts; try lia.
  reflexivity.
Qed.

(** Points enter [newCoords] two at a time. *)
Lemma smooth_from_even (cs : list point) (i : nat) (acc out : list point) :
  smooth_from far cs i acc = Ok out -> Nat.Even (length acc) -> Nat.Even (length out).
Proof.
  funelim (smooth_from far cs i acc); intros Hout Heven.
  - now injection Hout as <-.
  - match goal with IH : forall _, _ -> _ -> Nat.Even _ |- _ => now apply (IH out) end.
  - discriminate.
  - match goal with IH : forall _, _ -> _ -> Nat.Even _ |- _ => apply (IH out); [exact Hout|] end.
    rewrite length_app. cbn [length]. destruct Heven as [k Hk]. exists (S k). lia.
  - discriminate.
  - discriminate.
Qed.

Lemma fill_smooth_shape (cs out : list point) :
  smooth_shape far cs = Ok out ->
  (cs <> [] -> fill_empty out cs <> [])
  /\ (fill_empty out cs = cs \/ Nat.Even (length (fill_empty out cs))).
Proof.
  intros Hout. unfold fill_empty. destruct (length out =? 0)%nat eqn:E.
  - split; [tauto | now left].
  - apply Nat.eqb_neq in E. split; [intros _ ->; now apply E|].
    unfold smooth_shape in Hout. destruct (length cs <=? 2)%nat.
    + left. now injection Hout as <-.
    + right. apply (smooth_from_even cs 0 [] out Hout). now exists 0%nat.
Qed.

(** Shapes with points go through the simplifier and keep points. *)
Lemma smoothRasterCoords_nonempty (coords : list (list point)) :
  Forall (fun cs => cs <> []) coords ->
  exists newCoords,
    smoothRasterCoords far coords = Ok newCoords
    /\ Forall (fun cs => cs <> []) newCoords.
Proof.
  unfold smoothRasterCoords. induction 1 as [|cs coords Hcs _ IH].
  - exists []. split; [reflexivity | constructor].
  - destruct IH as [rest [Hrest Hall]].
    destruct (mapM_result (smooth_shape far) coords) as [pass|] eqn:Hpass;
      [|discriminate Hrest].
    cbn [bind] in Hrest. injection Hrest as <-.
    destruct (smooth_shape_sublist far cs) as [out [Hout _]].
    cbn [mapM_result]. rewrite Hout, Hpass. cbn [bind zip_with].
    eexists. split; [reflexivity|].
    constructor; [|exact Hall]. now apply (fill_smooth_shape cs out Hout).
Qed.

(** The simplifier never empties a shape: a Polyline with points gives a
    Polyline with points; and what it returns for a shape is the shape
    itself or an even number of its points. *)
Theorem smoothRasterCoords_pairs (coords newCoords : list (list point)) :
  smoothRasterCoords far coords = Ok newCoords ->
  Forall2 (fun new old => (old <> [] -> new <> [])
                          /\ (new = old \/ Nat.Even (length new)))
    newCoords coords.
Proof.
  unfold smoothRasterCoords.
  destruct (mapM_result (smooth_shape far) coords) as [pass|] eqn:Hpass; [|discriminate].
  cbn [bind]. intros [= <-]. revert pass Hpass.
  induction coords as [|cs coords IH]; intros pass; cbn [mapM_result].
  - intros [= <-]. constructor.
  - destruct (smooth_shape far cs) as [out|] eqn:Hout; [|discriminate].
    destruct (mapM_result (smooth_shape far) coords) as [rest|]; [|discriminate].
    cbn [bind]. intros [= <-]. cbn [zip_with].
    constructor; [now apply fill_smooth_shape | now apply IH].
Qed.

(** One turn of the outer loop when the inner loop stops at [j]. *)
Lemma smooth_from_hit (cs : list point) (i j : nat) (acc : list point) (ci cj : point) :
  (i < length cs - 2)%nat ->
  scan far cs i (length cs - 1) = Ok (Some j) ->
  cs !! i = Some ci -> cs !! j = Some cj ->
  smooth_from far cs i acc = smooth_from far cs (S j) (acc ++ [ci; cj]).
Proof.
  funelim (smooth_from far cs i acc); intros Hlt Hscan Hci Hcj; guard_facts;
    try lia; congruence.
Qed.

(** A run of points on one vertical line, the case the source handles in
    its [except] branch: when the last point has the [x] of the first and
    every point between is nearer than [SMOOTHERR] in [x], the shape is
    cut down to its two end points, whatever the slope test says. *)
Theorem smoothRasterCoords_vertical_run (c0 cn : point) (mid : list point) :
  mid <> [] ->
  fst cn = fst c0 ->
  Forall (fun p => Z.abs (fst c0 - fst p) < SMOOTHERR) mid ->
  smoothRasterCoords far [c0 :: mid ++ [cn]] = Ok [[c0; cn]].
Proof.
  intros Hmid Hx Hall.
  set (cs := c0 :: mid ++ [cn]).
  assert (Hlen : length cs = S (S (length mid))).
  { unfold cs. cbn [length]. rewrite length_app. cbn [length]. lia. }
  assert (Hpos : (0 < length mid)%nat) by (destruct mid; [congruence | cbn; lia]).
  assert (H0 : cs !! 0%nat = Some c0) by reflexivity.
  assert (Hn : cs !! S (length mid) = Some cn).
  { unfold cs. change ((mid ++ [cn]) !! length mid = Some cn).
    now apply list_lookup_middle. }
  assert (Hcan : canDel far cs 0 (S (length mid)) = Ok true).
  { unfold canDel. rewrite Hn, H0.
    replace (fst cn - fst c0 =? 0) with true by (symmetry; apply Z.eqb_eq; lia).
    f_equal. apply forallb_forall. intros p Hp.
    replace (take (S (length mid) - (0 + 1)) (drop (0 + 1) cs)) with mid in Hp.
    - rewrite List.Forall_forall in Hall. specialize (Hall p Hp).
      apply negb_true_iff, Z.leb_gt. exact Hall.
    - unfold cs. cbn [Nat.add drop Nat.sub].
      rewrite drop_0, Nat.sub_0_r, take_app_length. reflexivity. }
  assert (Hscan : scan far cs 0 (length cs - 1) = Ok (Some (S (length mid)))).
  { replace (length cs - 1)%nat with (S (length mid)) by lia. cbn [scan].
    replace (0 + 1 <? S (length mid))%nat with true by (symmetry; apply Nat.ltb_lt; lia).
    now rewrite Hcan. }
  unfold smoothRasterCoords. cbn [mapM_result]. fold cs. unfold smooth_shape.
  replace (length cs <=? 2)%nat with false by (symmetry; apply Nat.leb_gt; lia).
  rewrite (smooth_from_hit cs 0 (S (length mid)) [] c0 cn) by (try assumption; lia).
  rewrite smooth_from_end by lia. reflexivity.
Qed.

End SmoothMore.

Lemma smoothRasterCoords_pairs_witness :
  Forall2 (fun new old => (old <> [] -> new <> [])
                          /\ (new = old \/ Nat.Even (length new)))
    [[(0, 0); (3, 1)]; [(0, 0); (1, 1)]] [staircase; [(0, 0); (1, 1)]].
Proof.
  apply (smoothRasterCoords_pairs far_from_line_exact [staircase; [(0, 0); (1, 1)]]).
  reflexivity.
Defined.

Lemma smoothRasterCoords_vertical_run_witness :
  smoothRasterCoords far_from_line_exact [(3, 0) :: [(3, 1); (3, 2)] ++ [(3, 3)]]
  = Ok [[(3, 0); (3, 3)]].
Proof.
  apply (smoothRasterCoords_vertical_run far_from_line_exact (3, 0) (3, 3) [(3, 1); (3, 2)]).
  - discriminate.
  - reflexivity.
  - repeat constructor.
Defined.

(** ** Tracing *)

(** From a dark pixel the probe step returns, given four calls. *)
Lemma nextPixelInShape_returns (im : image) (px : point) (t : tracer) (depth : nat) :
  is_dark im px = true -> (4 <= depth)%nat ->
  exists q t', nextPixelInShape depth im px t = Ok (q, t').
Proof.
  intros Hpx Hdepth.
  do 4 (destruct depth as [|depth]; [lia|]). clear Hdepth.
  pose proof (Z.mod_pos_bound (direc t - 1) 4 eq_refl) as Hd.
  destruct (probe_square _ px Hd) as (q1 & q2 & q3 & H1 & H2 & H3 & H4).
  cbn [nextPixelInShape]. rewrite Hpx, H1.
  destruct (is_dark im q1); [eauto|]. cbn [direc done]. rewrite H2.
  destruct (is_dark im q2); [eauto|]. rewrite H3.
  destruct (is_dark im q3); [eauto|]. rewrite H4, Hpx. eauto.
Qed.

(** The inner loop, when it ends: it raised nothing, it only appended to
    the shape, it stopped on the start point, and what it appended ends
    with the start point. *)
Lemma trace_shape_spec (steps depth : nat) (im : image) (start : point) :
  (4 <= depth)%nat ->
  forall (pnt nextpoint : point) (sh : list point) (t : tracer) r,
    (point_eqb nextpoint start = false -> is_dark im pnt = true) ->
    trace_shape steps depth im start pnt nextpoint sh t = Some r ->
    exists more t',
      r = Ok (sh ++ more, start, t')
      /\ ((more = [] /\ nextpoint = start /\ t' = t) \/ last more = Some start).
Proof.
  intros Hdepth. induction steps as [|steps IH]; intros pnt nextpoint sh t r Hdark;
    cbn [trace_shape]; destruct (point_eqb nextpoint start) eqn:E.
  - intros [= <-]. apply point_eqb_eq in E. subst. exists [], t.
    rewrite app_nil_r. split; [reflexivity | now left].
  - discriminate.
  - intros [= <-]. apply point_eqb_eq in E. subst. exists [], t.
    rewrite app_nil_r. split; [reflexivity | now left].
  - destruct (nextPixelInShape_returns im pnt t depth (Hdark eq_refl) Hdepth)
      as (q & t' & Hq).
    rewrite Hq. intros Hr.
    apply IH in Hr as (more & t'' & -> & Hmore);
      [|intros _; exact (nextPixelInShape_dark _ _ _ _ _ _ Hq)].
    exists (q :: more), t''. split; [now rewrite <- app_assoc|].
    right. destruct Hmore as [(-> & -> & _) | Hlast]; [reflexivity|].
    destruct more; [discriminate | exact Hlast].
Qed.

Lemma nextShape_from_returns (ps : list point) (im : image) (t : tracer) :
  (forall p, In p ps -> im p <> None) ->
  exists p t', nextShape_from ps im t = Ok (p, t').
Proof.
  induction ps as [|a ps IH]; intros Him; cbn [nextShape_from]; [eauto|].
  unfold is_start. destruct (im a) eqn:Ha; [|exfalso; apply (Him a); [now left | exact Ha]].
  cbn [bind].
  destruct (_ && _); [eauto|]. apply IH. intros p Hp. apply Him. now right.
Qed.

(** What [nextShape] returns is the sentinel or a dark pixel. *)
Lemma nextShape_dark (im : image) (t : tracer) (p : point) (t' : tracer) :
  nextShape im t = Ok (p, t') -> p = (-1, -1) \/ is_dark im p = true.
Proof.
  intros H. apply nextShape_from_spec in H as [(-> & _) | (b & a & _ & _ & Hp & _)].
  - now left.
  - right. now apply is_start_true in Hp.
Qed.

(** The outer loop, when it ends: it raised nothing, it only appended
    shapes, and each shape it appended starts and ends with its start
    point. *)
Lemma trace_shapes_spec (steps depth : nat) (im : image) :
  (4 <= depth)%nat ->
  (forall p, In p scan_order -> im p <> None) ->
  forall (pnt nextpoint : point) (shapeList : list (list point)) (t : tracer) r,
    (pnt = (-1, -1) \/ is_dark im pnt = true) ->
    trace_shapes steps depth im pnt nextpoint shapeList t = Some r ->
    exists new t', r = Ok (shapeList ++ new, t') /\ Forall closed new.
Proof.
  intros Hdepth Him. induction steps as [|steps IH]; intros pnt nextpoint shapeList t r Hpnt;
    cbn [trace_shapes]; destruct (point_eqb pnt (-1, -1)) eqn:E;
    try (intros [= <-]; exists [], t; rewrite app_nil_r; split; [reflexivity | constructor]);
    try discriminate.
  destruct Hpnt as [-> | Hdark]; [discriminate|].
  destruct (trace_shape steps depth im pnt pnt nextpoint [pnt] t) as [rs|] eqn:Hrs;
    [|discriminate].
  apply trace_shape_spec in Hrs as (more & t' & -> & Hmore); [|exact Hdepth | now intros _].
  destruct (nextShape_from_returns scan_order im t' Him) as (p' & t'' & Hn).
  fold (nextShape im t') in Hn. rewrite Hn. intros Hr.
  apply IH in Hr as (new & t3 & -> & Hnew); [|exact (nextShape_dark _ _ _ _ Hn)].
  exists (([pnt] ++ more) :: new), t3. split; [now rewrite <- app_assoc|].
  constructor; [|exact Hnew].
  exists pnt, more. split; [reflexivity|].
  destruct Hmore as [(-> & _) | Hlast]; [reflexivity|].
  cbn [app]. destruct more; [discriminate | exact Hlast].
Qed.

Lemma closed_nonempty (sh : list point) : closed sh -> sh <> [].
Proof. intros (c & rest & -> & _). discriminate. Qed.

Lemma close_shapes_nonempty (shapeList : list (list point)) :
  Forall (fun sh => sh <> []) shapeList ->
  exists out, close_shapes shapeList = Ok out /\ Forall closed out.
Proof.
  unfold close_shapes. induction 1 as [|sh l Hsh _ [out [Hout Hall]]].
  - exists []. split; [reflexivity | constructor].
  - destruct sh as [|c rest]; [congruence|].
    destruct (close_shape_cons c rest) as [o Ho].
    cbn [mapM_result]. rewrite Ho, Hout. cbn [bind].
    eexists. split; [reflexivity|]. constructor; [|exact Hall].
    now apply close_shape_spec in Ho.
Qed.

(** Given four nested calls and an image that covers the grid, when
    [readFromRaster] ends it has raised nothing, and every shape of the
    ShapeList it returns has points and ends on its first point, whatever
    the slope test of the simplifier says. *)
Theorem readFromRaster_closed (far : point -> point -> point -> bool)
  (steps depth : nat) (im : image) (t : tracer) r :
  (4 <= depth)%nat ->
  (forall p, In p scan_order -> im p <> None) ->
  readFromRaster far steps depth im t = Some r ->
  exists shapeList t', r = Ok (shapeList, t') /\ Forall closed shapeList.
Proof.
  intros Hdepth Him. unfold readFromRaster.
  destruct (nextShape_from_returns scan_order im t Him) as (p & t1 & Hn).
  fold (nextShape im t) in Hn. rewrite Hn.
  destruct (trace_shapes steps depth im p (0, 0) [] t1) as [rs|] eqn:Hrs; [|discriminate].
  apply trace_shapes_spec in Hrs as (new & t2 & -> & Hnew);
    [|exact Hdepth | exact Him | exact (nextShape_dark _ _ _ _ Hn)].
  cbn [app].
  destruct (smoothRasterCoords_nonempty far new) as (smoothed & Hs & Hne).
  { eapply Forall_impl; [exact Hnew|]. intros sh. apply closed_nonempty. }
  destruct (close_shapes_nonempty smoothed Hne) as (out & Hout & Hclosed).
  rewrite Hs. cbn [bind]. rewrite Hout. cbn [bind].
  intros [= <-]. eauto.
Qed.

Lemma dark_square_covers (p : point) : In p scan_order -> dark_square p <> None.
Proof.
  intros Hp. apply in_scan_order in Hp as [Hx Hy]. unfold dark_square.
  replace ((0 <=? fst p) && (fst p <? IMDIM) && (0 <=? snd p) && (snd p <? IMDIM))
    with true by (symmetry; rewrite !andb_true_iff; lia).
  destruct (_ && _); discriminate.
Qed.

Lemma readFromRaster_closed_witness :
  exists shapeList t',
    Ok ([[(10, 10); (12, 11); (12, 12); (10, 11); (10, 10)]],
        {| direc := 0;
           done := [(10, 10); (11, 10); (11, 10); (12, 10); (12, 10); (12, 10);
                    (12, 11); (12, 11); (12, 12); (12, 12); (11, 12); (11, 12);
                    (10, 12); (10, 12); (10, 12); (10, 11); (10, 11); (10, 10)] |})
    = Ok (shapeList, t')
    /\ Forall closed shapeList.
Proof.
  apply (readFromRaster_closed far_from_line_exact 100 100 dark_square
           {| direc := 0; done := [] |}).
  - apply Nat.leb_le. reflexivity.
  - exact dark_square_covers.
  - vm_compute. reflexivity.
Defined.

Lemma nextShape_from_none (ps : list point) (im : image) (t : tracer) :
  (forall q, In q ps -> is_start im (done t) q = Ok false) ->
  nextShape_from ps im t = Ok ((-1, -1), t).
Proof.
  induction ps as [|a ps IH]; intros Hall; cbn [nextShape_from]; [reflexivity|].
  rewrite (Hall a) by now left. cbn [bind]. apply IH. intros q Hq. apply Hall. now right.
Qed.

(** When no coordinate of the grid is a dark edge pixel outside [done],
    [readFromRaster] returns the empty ShapeList at once and leaves the
    globals alone.  [done] is never reset, so this is also what a second
    call on an image returns once the first call has visited its edge
    pixels. *)
Theorem readFromRaster_nothing_to_trace (far : point -> point -> point -> bool)
  (steps depth : nat) (im : image) (t : tracer) :
  (forall q, In q scan_order -> is_start im (done t) q = Ok false) ->
  readFromRaster far steps depth im t = Some (Ok ([], t)).
Proof.
  intros Hall. unfold readFromRaster, nextShape.
  rewrite (nextShape_from_none scan_order im t Hall).
  destruct steps; reflexivity.
Qed.

Lemma readFromRaster_nothing_to_trace_witness :
  readFromRaster far_from_line_exact 100 100 white_image fresh = Some (Ok ([], fresh)).
Proof.
  apply (readFromRaster_nothing_to_trace far_from_line_exact 100 100 white_image fresh).
  intros q _. reflexivity.
Defined.

(** The dark square is traced once; a second call, with the [done] the
    first call left, finds nothing. *)
Example readFromRaster_second_call :
  match readFromRaster far_from_line_exact 100 100 dark_square fresh with
  | Some (Ok (shapeList, t)) =>
      shapeList = [[(10, 10); (12, 11); (12, 12); (10, 11); (10, 10)]]
      /\ readFromRaster far_from_line_exact 100 100 dark_square t = Some (Ok ([], t))
  | _ => False
  end.
Proof. vm_compute. split; reflexivity. Qed.

(** The outer loop only appends shapes. *)
Lemma trace_shapes_prefix (steps depth : nat) (im : image) :
  forall (pnt nextpoint : point) (shapeList out : list (list point)) (t t' : tracer),
    trace_shapes steps depth im pnt nextpoint shapeList t = Some (Ok (out, t')) ->
    exists new, out = shapeList ++ new.
Proof.
  induction steps as [|steps IH]; intros pnt nextpoint shapeList out t t';
    cbn [trace_shapes]; destruct (point_eqb pnt (-1, -1));
    try (intros [= <- <-]; exists []; now rewrite app_nil_r); try discriminate.
  destruct (trace_shape steps depth im pnt pnt nextpoint [pnt] t) as [[[[sh np] t1]|]|];
    try discriminate.
  destruct (nextShape im t1) as [[p' t2]|]; [|discriminate].
  intros H. apply IH in H as [new ->]. exists (sh :: new). now rewrite <- app_assoc.
Qed.

Lemma smoothRasterCoords_short_head (far : point -> point -> point -> bool)
  (cs : list point) (coords out : list (list point)) :
  (length cs <= 2)%nat ->
  smoothRasterCoords far (cs :: coords) = Ok out -> exists rest, out = cs :: rest.
Proof.
  intros Hlen. unfold smoothRasterCoords. cbn [mapM_result]. unfold smooth_shape at 1.
  replace (length cs <=? 2)%nat with true by (symmetry; now apply Nat.leb_le).
  cbn [bind]. destruct (mapM_result (smooth_shape far) coords); [|discriminate].
  cbn [bind zip_with]. intros [= <-]. unfold fill_empty.
  destruct (length cs =? 0)%nat; eauto.
Qed.

(** [nextpoint] starts as [(0, 0)], so when the first start point is
    [(0, 0)] the inner loop does not run: the first shape of the ShapeList
    is that single point, and the rest of its region is left to later
    shapes. *)
Theorem readFromRaster_origin_start (far : point -> point -> point -> bool)
  (steps depth : nat) (im : image) (t t1 t' : tracer) (shapeList : list (list point)) :
  nextShape im t = Ok ((0, 0), t1) ->
  readFromRaster far steps depth im t = Some (Ok (shapeList, t')) ->
  exists rest, shapeList = [(0, 0)] :: rest.
Proof.
  intros Hn. unfold readFromRaster. rewrite Hn.
  destruct steps as [|steps]; [discriminate|].
  cbn [trace_shapes]. change (point_eqb (0, 0) (-1, -1)) with false. cbn iota.
  assert (Hts : trace_shape steps depth im (0, 0) (0, 0) (0, 0) [(0, 0)] t1
                = Some (Ok ([(0, 0)], (0, 0), t1))) by (destruct steps; reflexivity).
  rewrite Hts. destruct (nextShape im t1) as [[p' t2]|]; [|discriminate].
  destruct (trace_shapes steps depth im p' (0, 0) ([] ++ [[(0, 0)]]) t2)
    as [[[traced t3]|]|] eqn:Htr; try discriminate.
  apply trace_shapes_prefix in Htr as [new ->]. cbn [app].
  destruct (smoothRasterCoords far ([(0, 0)] :: new)) as [smoothed|] eqn:Hs; [|discriminate].
  apply smoothRasterCoords_short_head in Hs as [rest ->]; [|cbn; lia].
  cbn [bind]. unfold close_shapes. cbn [mapM_result].
  change (close_shape [(0, 0)]) with (Ok [(0, 0)] : result (list point)). cbn [bind].
  destruct (mapM_result close_shape rest) as [closed_rest|]; [|discriminate].
  cbn [bind]. intros [= <- _]. eauto.
Qed.

Lemma readFromRaster_origin_start_witness :
  exists rest,
    [[(0, 0)]; [(0, 1); (1, 0); (1, 1); (0, 1)]] = [(0, 0)] :: rest.
Proof.
  apply (readFromRaster_origin_start far_from_line_exact 100 100 dark_corner fresh
           {| direc := 0; done := [(0, 0)] |}
           {| direc := 2;
              done := [(0, 0); (0, 1); (0, 0); (0, 0); (1, 0); (1, 0); (1, 0);
                       (1, 1); (1, 1); (1, 1); (0, 1)] |}).
  - vm_compute. reflexivity.
  - vm_compute. reflexivity.
Defined.

(** ** More on the DXF reader *)

Section DXFProps.

Context {F : Type} `{Arith F}.

Variable float_of_str : string -> option F.

(** Outside a polyline the loop reads nothing: without a POLYLINE line
    the path stays as it is. *)
Lemma dxf_loop_no_polyline (n : nat) :
  forall (lines : list string) (st : dxf_state),
    (length lines <= n)%nat ->
    polyline st = 0 ->
    (forall l, In l lines -> l <> line "POLYLINE") ->
    exists st', dxf_loop float_of_str lines st = Ok st' /\ path st' = path st.
Proof.
  induction n as [|n IH]; intros lines st Hlen Hpoly Hno.
  - destruct lines; [|cbn in Hlen; lia]. eauto.
  - destruct lines as [|l rest]; [eauto|]. cbn [dxf_loop].
    assert (Hrest : forall l', In l' rest -> l' <> line "POLYLINE")
      by (intros l' Hl'; apply Hno; now right).
    assert (Hlen' : (length rest <= n)%nat) by (cbn in Hlen; lia).
    destruct (String.eqb_spec l ("POLYLINE" ++ nl)) as [E|_];
      [exfalso; apply (Hno l); [now left | exact E]|].
    rewrite Hpoly. change (0 =? 1) with false. rewrite !andb_false_r.
    destruct (String.eqb l ("VERTEX" ++ nl)); [|destruct (String.eqb l ("SEQEND" ++ nl))];
      match goal with |- context [dxf_loop _ rest ?s] =>
        destruct (IH rest s Hlen') as (st' & E & Hp);
          [first [exact Hpoly | reflexivity] | exact Hrest |];
          exists st'; split; [exact E | exact Hp]
      end.
Qed.

(** A file without a POLYLINE line gives no shape, and [readFromDXF]
    ends in the ValueError of [max] on an empty list. *)
Theorem readFromDXF_no_polyline (DXFtxt : list string) :
  (forall l, In l DXFtxt -> l <> line "POLYLINE") ->
  dxf_parse float_of_str DXFtxt = Ok []
  /\ readFromDXF float_of_str DXFtxt = Raise ValueError.
Proof.
  intros Hno.
  destruct (dxf_loop_no_polyline (length DXFtxt) DXFtxt dxf_init (Nat.le_refl _) eq_refl Hno)
    as (st' & Hloop & Hpath).
  assert (Hparse : dxf_parse float_of_str DXFtxt = Ok []).
  { unfold dxf_parse. rewrite Hloop. cbn [bind]. now rewrite Hpath. }
  split; [exact Hparse|]. unfold readFromDXF. rewrite Hparse. reflexivity.
Qed.

Lemma no_repeat_snoc (l : list (F * F)) (v : F * F) :
  no_repeat l ->
  match last l with Some a => same_vertex a v = false | None => True end ->
  no_repeat (l ++ [v]).
Proof.
  induction l as [|a l IH]; intros Hl Hlast; [exact I|].
  destruct l as [|b l].
  - cbn in Hlast |- *. split; [exact Hlast | exact I].
  - destruct Hl as [Hab Hl]. rewrite last_cons_cons in Hlast.
    split; [exact Hab | apply IH; assumption].
Qed.

(** Appending to the last shape appends to the whole path. *)
Lemma append_at_last (p : list (list (F * F))) (v : F * F) :
  p <> [] ->
  exists p',
    append_at p (Z.of_nat (length p) - 1) v = Ok p'
    /\ concat p' = concat p ++ [v] /\ length p' = length p.
Proof.
  intros Hp. destruct (proj2 (last_is_Some p) Hp) as [s Hs].
  apply last_Some in Hs as [q ->]. unfold append_at.
  rewrite length_app. cbn [length].
  replace (Z.of_nat (length q + 1) - 1 <? 0) with false by (symmetry; apply Z.ltb_ge; lia).
  replace ((0 <=? Z.of_nat (length q + 1) - 1)
           && (Z.of_nat (length q + 1) - 1 <? Z.of_nat (length q + 1)))
    with true by (symmetry; rewrite andb_true_iff, Z.leb_le, Z.ltb_lt; lia).
  replace (Z.to_nat (Z.of_nat (length q + 1) - 1)) with (length q + 0)%nat by lia.
  rewrite alter_app_r. cbn [alter list_alter].
  eexists. split; [reflexivity|]. split.
  - rewrite !concat_app. cbn [concat]. rewrite !app_nil_r. now rewrite app_assoc.
  - rewrite !length_app. reflexivity.
Qed.

Lemma last_cons_Some (a b : string) (l : list string) :
  last l = Some a -> last (b :: l) = Some a.
Proof. intros Hl. rewrite last_cons, Hl. reflexivity. Qed.

Lemma dxf_loop_inv (n : nat) :
  forall (lines : list string) (st : dxf_state),
    (length lines <= n)%nat ->
    dxf_inv st ->
    match dxf_loop float_of_str lines st with
    | Ok st' => dxf_inv st'
    | Raise e => e = IndexError -> exists l, last lines = Some l /\ is_group_code l
    end.
Proof.
  induction n as [|n IH]; intros lines st Hlen Hinv.
  - destruct lines; [exact Hinv | cbn in Hlen; lia].
  - destruct lines as [|l rest]; [exact Hinv|]. cbn [dxf_loop].
    assert (Hlen' : (length rest <= n)%nat) by (cbn in Hlen; lia).
    assert (Hstep : forall st1, dxf_inv st1 ->
              match dxf_loop float_of_str rest st1 with
              | Ok st' => dxf_inv st'
              | Raise e => e = IndexError ->
                           exists l0, last (l :: rest) = Some l0 /\ is_group_code l0
              end).
    { intros st1 H1. specialize (IH rest st1 Hlen' H1).
      destruct (dxf_loop float_of_str rest st1); [exact IH|].
      intros He. destruct (IH He) as (l0 & Hl0 & Hg). exists l0.
      split; [now apply last_cons_Some | exact Hg]. }
    assert (Hstep2 : forall v rest' st1, rest = v :: rest' -> dxf_inv st1 ->
              match dxf_loop float_of_str rest' st1 with
              | Ok st' => dxf_inv st'
              | Raise e => e = IndexError ->
                           exists l0, last (l :: rest) = Some l0 /\ is_group_code l0
              end).
    { intros v rest' st1 -> H1.
      assert (Hl2 : (length rest' <= n)%nat) by (cbn in Hlen'; lia).
      specialize (IH rest' st1 Hl2 H1).
      destruct (dxf_loop float_of_str rest' st1); [exact IH|].
      intros He. destruct (IH He) as (l0 & Hl0 & Hg). exists l0.
      split; [now apply last_cons_Some, last_cons_Some | exact Hg]. }
    destruct Hinv as (Hseg & Hpoly & Hrep & Hold).
    destruct (String.eqb l ("POLYLINE" ++ nl)).
    { apply Hstep. unfold dxf_inv. cbn [segment path polyline xold yold].
      rewrite length_app, concat_app. cbn [length concat]. rewrite !app_nil_r.
      repeat split; [lia | intros _ E; now apply app_eq_nil in E as [_ ?]
                     | exact Hrep | exact Hold]. }
    destruct (String.eqb l ("VERTEX" ++ nl)).
    { apply Hstep. repeat split; assumption. }
    destruct (String.eqb (strip l) "10" && (vertex st =? 1) && (polyline st =? 1)) eqn:E10.
    { destruct rest as [|v rest'].
      - intros _. exists l. split; [reflexivity|]. left.
        apply andb_prop in E10 as [E10 _]. apply andb_prop in E10 as [E10 _].
        now apply String.eqb_eq in E10.
      - destruct (float_of_str v); [|discriminate].
        apply (Hstep2 v rest'); [reflexivity|]. repeat split; assumption. }
    destruct (String.eqb (strip l) "20" && (vertex st =? 1) && (polyline st =? 1)) eqn:E20.
    { apply andb_prop in E20 as [E20 Hp1]. apply andb_prop in E20 as [E20 _].
      apply String.eqb_eq in E20. apply Z.eqb_eq in Hp1.
      destruct rest as [|v rest'].
      - intros _. exists l. split; [reflexivity | now right].
      - destruct (float_of_str v) as [yv|]; [|discriminate].
        destruct (x st) as [xv|]; [|discriminate].
        destruct (differs xv (xold st) || differs yv (yold st)) eqn:Ed.
        + destruct (append_at_last (path st) (xv, yv) (Hpoly Hp1)) as (p' & Hp' & Hc & Hl).
          rewrite Hseg, Hp'. cbn [bind].
          apply (Hstep2 v rest'); [reflexivity|].
          unfold dxf_inv. cbn [segment path polyline xold yold].
          rewrite Hc, Hl. split; [lia | split; [|split]].
          * intros _ E. apply (Hpoly Hp1). destruct (path st); [reflexivity|].
            rewrite E in Hl. discriminate.
          * apply no_repeat_snoc; [exact Hrep|].
            destruct (xold st) as [xo|], (yold st) as [yo|]; try contradiction.
            -- rewrite Hold. unfold same_vertex. cbn [fst snd differs] in Ed |- *.
               rewrite <- negb_andb in Ed. now apply negb_true_iff in Ed.
            -- now rewrite Hold.
          * apply last_snoc.
        + apply (Hstep2 v rest'); [reflexivity|]. repeat split; assumption. }
    destruct (String.eqb l ("SEQEND" ++ nl)).
    { apply Hstep. repeat split; try assumption. cbn [polyline]. discriminate. }
    apply Hstep. repeat split; assumption.
Qed.

Lemma dxf_init_inv : dxf_inv dxf_init.
Proof. repeat split. cbn. discriminate. Qed.

(** The reader never keeps a point that repeats the point captured just
    before it, the last point of an earlier shape included: in the parsed
    path, read as one sequence, no point follows an equal point. *)
Theorem dxf_parse_no_repeat (DXFtxt : list string) (p : list (list (F * F))) :
  dxf_parse float_of_str DXFtxt = Ok p -> no_repeat (concat p).
Proof.
  unfold dxf_parse. intros Hp.
  pose proof (dxf_loop_inv (length DXFtxt) DXFtxt dxf_init (Nat.le_refl _) dxf_init_inv) as Hinv.
  destruct (dxf_loop float_of_str DXFtxt dxf_init) as [st|]; [|discriminate].
  cbn [bind] in Hp. injection Hp as <-. apply Hinv.
Qed.

(** [path[segment]] is always in range: the reader raises IndexError only
    on a file whose last line is a group code [10] or [20], with no line
    left for its value. *)
Theorem dxf_parse_IndexError (DXFtxt : list string) :
  dxf_parse float_of_str DXFtxt = Raise IndexError ->
  exists l, last DXFtxt = Some l /\ is_group_code l.
Proof.
  unfold dxf_parse. intros Hp.
  pose proof (dxf_loop_inv (length DXFtxt) DXFtxt dxf_init (Nat.le_refl _) dxf_init_inv) as Hinv.
  destruct (dxf_loop float_of_str DXFtxt dxf_init) as [st|e]; [discriminate|].
  cbn [bind] in Hp. injection Hp as ->. now apply Hinv.
Qed.

(** A group [20] that comes before any group [10] raises NameError: [x]
    is not bound yet. *)
Theorem dxf_parse_y_before_x (code value : string) (yv : F) (rest : list string) :
  strip code = "20"%string ->
  float_of_str value = Some yv ->
  dxf_parse float_of_str (line "POLYLINE" :: line "VERTEX" :: code :: value :: rest)
  = Raise NameError.
Proof.
  intros Hcode Hval. unfold dxf_parse. cbn [dxf_loop].
  change (String.eqb (line "POLYLINE") ("POLYLINE" ++ nl)) with true. cbn iota.
  change (String.eqb (line "VERTEX") ("POLYLINE" ++ nl)) with false.
  change (String.eqb (line "VERTEX") ("VERTEX" ++ nl)) with true. cbn iota.
  cbn [vertex polyline x].
  assert (Hnp : String.eqb code ("POLYLINE" ++ nl) = false).
  { apply String.eqb_neq. intros ->. discriminate Hcode. }
  assert (Hnv : String.eqb code ("VERTEX" ++ nl) = false).
  { apply String.eqb_neq. intros ->. discriminate Hcode. }
  rewrite Hnp, Hnv, Hcode. cbn [String.eqb Ascii.eqb Bool.eqb andb Z.eqb Pos.eqb].
  now rewrite Hval.
Qed.

End DXFProps.

Lemma readFromDXF_no_polyline_witness :
  dxf_parse float_of_decimal
    (map line ["VERTEX"; " 10"; "1.0"; " 20"; "2.0"; "SEQEND"]%string) = Ok []
  /\ readFromDXF float_of_decimal
       (map line ["VERTEX"; " 10"; "1.0"; " 20"; "2.0"; "SEQEND"]%string)
     = Raise ValueError.
Proof.
  apply (readFromDXF_no_polyline float_of_decimal).
  intros l Hl. cbn in Hl.
  repeat (destruct Hl as [<- | Hl]; [discriminate|]). destruct Hl.
Defined.

Lemma dxf_parse_no_repeat_witness :
  no_repeat (concat [[(0, 0); (1, 1)]; [(2, 2)]]%Q).
Proof. apply (dxf_parse_no_repeat float_of_decimal two_polylines). reflexivity. Defined.

Lemma dxf_parse_IndexError_witness :
  exists l, last (map line ["POLYLINE"; "VERTEX"; " 10"]%string) = Some l /\ is_group_code l.
Proof.
  apply (dxf_parse_IndexError float_of_decimal (map line ["POLYLINE"; "VERTEX"; " 10"]%string)).
  reflexivity.
Defined.

Lemma dxf_parse_y_before_x_witness :
  dxf_parse float_of_decimal
    (line "POLYLINE" :: line "VERTEX" :: line " 20" :: line "2.0" :: [line "SEQEND"])
  = Raise NameError.
Proof.
  apply (dxf_parse_y_before_x float_of_decimal (line " 20") (line "2.0") 2%Q).
  - reflexivity.
  - reflexivity.
Defined.

(** ** More on rescaling *)

Section ScaleProps.

Context {F : Type} `{Arith F}.

Lemma py_max_returns (l : list F) : l <> [] -> exists m, py_max l = Ok m.
Proof. destruct l; [congruence | cbn; eauto]. Qed.

Lemma py_min_returns (l : list F) : l <> [] -> exists m, py_min l = Ok m.
Proof. destruct l; [congruence | cbn; eauto]. Qed.

(** [scale] raises the ValueError of [max] exactly on a path without
    coordinates, the empty path and a path of empty shapes alike.  On any
    other path it either raises ZeroDivisionError or returns a path with
    the same number of shapes and of points in each shape. *)
Theorem scale_outcomes (p : list (list (F * F))) :
  (concat p = [] -> scale p = Raise ValueError)
  /\ (concat p <> [] ->
      scale p = Raise ZeroDivisionError
      \/ exists p', scale p = Ok p' /\ map length p' = map length p).
Proof.
  unfold scale, bounding_size. split.
  - intros ->. reflexivity.
  - intros Hne.
    assert (Hx : map fst (concat p) <> []) by (destruct (concat p); [congruence | discriminate]).
    assert (Hy : map snd (concat p) <> []) by (destruct (concat p); [congruence | discriminate]).
    destruct (py_max_returns _ Hx) as [maxx ->]. destruct (py_max_returns _ Hy) as [maxy ->].
    destruct (py_min_returns _ Hx) as [minx ->]. destruct (py_min_returns _ Hy) as [miny ->].
    cbn [bind]. destruct (fdiv _ _) as [sc|]; [right | now left].
    eexists. split; [reflexivity|].
    rewrite map_map. apply map_ext. intros sh. apply length_map.
Qed.

End ScaleProps.

(** In binary64, on a drawing with a coordinate, all of them whole and
    from [0] to [1000], [scale] raises ZeroDivisionError exactly when
    every coordinate is zero: a drawing that is a single point at the
    origin. *)
Theorem scale_float_whole_ZeroDivisionError (zp : list (list (Z * Z))) :
  concat zp <> [] ->
  Forall (fun c => 0 <= fst c <= WHOLE_MAX /\ 0 <= snd c <= WHOLE_MAX) (concat zp) ->
  (scale (whole_path zp) = Raise ZeroDivisionError
   <-> Forall (fun c => fst c = 0 /\ snd c = 0) (concat zp)).
Proof.
  intros Hne Hall.
  destruct (bounding_size_whole zp Hne Hall)
    as (Mx & My & mx & my & _ & _ & _ & _ & (IMx & IMy & Imx & Imy) & Hbox & Hs).
  rewrite List.Forall_forall in Hall, Hbox.
  apply in_map_iff in IMx as (cMx & EMx & IMx). apply in_map_iff in IMy as (cMy & EMy & IMy).
  apply in_map_iff in Imx as (cmx & Emx & Imx). apply in_map_iff in Imy as (cmy & Emy & Imy).
  pose proof (Hall _ IMx) as RMx. pose proof (Hall _ IMy) as RMy.
  pose proof (Hall _ Imx) as Rmx. pose proof (Hall _ Imy) as Rmy.
  pose proof (Hbox _ IMx) as BMx. pose proof (Hbox _ IMy) as BMy.
  rewrite EMx in RMx. rewrite EMy in RMy. rewrite Emx in Rmx. rewrite Emy in Rmy.
  assert (Hrange : 0 <= Z.max Mx My + Z.min mx my <= 2 * WHOLE_MAX)
    by (unfold WHOLE_MAX in *; lia).
  rewrite (scale_whole zp _ Hrange Hs).
  destruct (Z.max Mx My + Z.min mx my =? 0) eqn:Es.
  - apply Z.eqb_eq in Es. split; [intros _ | reflexivity].
    apply List.Forall_forall. intros c Hc.
    pose proof (Hall _ Hc). pose proof (Hbox _ Hc). lia.
  - apply Z.eqb_neq in Es. split; [discriminate|].
    intros Hzero. rewrite List.Forall_forall in Hzero.
    pose proof (Hzero _ IMx). pose proof (Hzero _ IMy).
    pose proof (Hzero _ Imx). pose proof (Hzero _ Imy). lia.
Qed.

Lemma scale_float_whole_ZeroDivisionError_witness :
  scale (whole_path [[(0, 0); (0, 0)]]) = Raise ZeroDivisionError
  <-> Forall (fun c => fst c = 0 /\ snd c = 0) (concat [[(0, 0); (0, 0)]]).
Proof.
  apply (scale_float_whole_ZeroDivisionError [[(0, 0); (0, 0)]]).
  - discriminate.
  - repeat constructor; cbn; unfold WHOLE_MAX; lia.
Defined.

(** ** From traced shapes to the aligned program *)

Lemma string_app_assoc (a b c : string) : ((a ++ b) ++ c = a ++ b ++ c)%string.
Proof. induction a as [|x a IH]; cbn; [reflexivity | now rewrite IH]. Qed.

Lemma nl_free_append (a b : string) :
  nl_free (a ++ b) = nl_free a && nl_free b.
Proof.
  induction a as [|c a IH]; cbn [append nl_free]; [reflexivity|].
  rewrite IH. now rewrite andb_assoc.
Qed.

Lemma string_of_uint_nl_free (d : Decimal.uint) :
  nl_free (NilEmpty.string_of_uint d) = true.
Proof. induction d; cbn; assumption || reflexivity. Qed.

(** The decimal text of an [int] holds no newline. *)
Lemma str_int_nl_free (n : Z) : nl_free (str_int n) = true.
Proof.
  unfold str_int, NilZero.string_of_int.
  destruct (Z.to_int n) as [d|d]; unfold NilZero.string_of_uint;
    destruct d; try reflexivity; cbn [nl_free]; apply string_of_uint_nl_free.
Qed.

Lemma coord_text_int_nl_free (p : point) : nl_free (coord_text (pt (fst p) (snd p))) = true.
Proof.
  unfold coord_text, pt, axis_str. cbn [fst snd is_whole py_str].
  rewrite !nl_free_append, !str_int_nl_free. reflexivity.
Qed.

Lemma coord_line_text (c : coord) : coord_line c = line (coord_text c).
Proof.
  unfold coord_line, coord_text, line. cbn [append].
  f_equal. now rewrite !string_app_assoc.
Qed.

Lemma pen_block_lines (sh : shape) : pen_block sh = map line (shape_lines sh).
Proof.
  destruct sh as [|c cs]; [reflexivity|]. cbn [pen_block shape_lines map].
  rewrite coord_line_text, map_app, map_map. cbn [map]. do 3 f_equal.
  apply map_ext. intros c'. apply coord_line_text.
Qed.

Lemma pen_blocks_lines (shapes : list shape) :
  pen_blocks shapes = map line (flat_map shape_lines shapes).
Proof.
  unfold pen_blocks. induction shapes as [|sh shapes IH]; [reflexivity|].
  cbn [map concat flat_map]. now rewrite map_app, IH, pen_block_lines.
Qed.

(** Splitting written lines: each line back, then what follows. *)
Lemma split_written_lines (ls : list string) (s : string) :
  Forall (fun l => nl_free l = true) ls ->
  split_nl (String.concat "" (map line ls ++ [s])) = ls ++ split_nl s.
Proof.
  induction 1 as [|l ls Hl _ IH]; [reflexivity|].
  cbn [map app]. 
  assert (E : String.concat "" (line l :: (map line ls ++ [s]))
              = (l ++ nl ++ String.concat "" (map line ls ++ [s]))%string).
  { destruct ls as [|l' ls]; cbn [map app String.concat]; unfold line;
      now rewrite string_app_assoc. }
  rewrite E, (split_nl_line _ _ Hl), IH. reflexivity.
Qed.

Lemma shape_lines_int_nl_free (sh : list point) :
  Forall (fun l => nl_free l = true)
    (shape_lines (map (fun p => pt (fst p) (snd p)) sh)).
Proof.
  destruct sh as [|p ps]; [repeat constructor|]. cbn [map shape_lines].
  constructor; [apply coord_text_int_nl_free|]. constructor; [reflexivity|].
  apply Forall_app. split; [|repeat constructor].
  rewrite map_map. apply Forall_map, Forall_forall. intros q _.
  apply coord_text_int_nl_free.
Qed.

(** The lines of the file the emitter writes for traced shapes. *)
Lemma toTextFile_int_lines (shapes : list (list point)) :
  split_nl (toTextFile (int_shapes shapes))
  = ["G17 G21 G90 G54"; "G00 X0. Y0."]%string
    ++ flat_map shape_lines (int_shapes shapes) ++ ["X0. Y0."; "M2"]%string.
Proof.
  unfold toTextFile. rewrite toTextFile_writes_blocks, pen_blocks_lines.
  change ([line "G17 G21 G90 G54"; line "G00 X0. Y0."]
          ++ map line (flat_map shape_lines (int_shapes shapes)) ++ [footer])
    with (map line (["G17 G21 G90 G54"; "G00 X0. Y0."]%string
                    ++ flat_map shape_lines (int_shapes shapes)) ++ [footer]).
  rewrite split_written_lines.
  - now rewrite <- app_assoc.
  - constructor; [reflexivity|]. constructor; [reflexivity|].
    unfold int_shapes. induction shapes as [|sh shapes IH]; [constructor|].
    cbn [map flat_map]. apply Forall_app. split; [apply shape_lines_int_nl_free | exact IH].
Qed.

Lemma prefix_X (r : string) : String.prefix "X" (String "X" r) = true.
Proof. now destruct r. Qed.

Lemma align_coord_text (a : aligner) (c : coord) :
  align_line a (coord_text c)
  = {| pen_up := pen_up a;
       new_g_code := new_g_code a
                     ++ [((if pen_up a then "G00 " else "G01 ") ++ coord_text c)%string] |}.
Proof.
  unfold align_line, startswith, coord_text.
  change ("X" ++ ?r)%string with (String "X" r).
  rewrite prefix_X. reflexivity.
Qed.

Lemma fold_align_cuts (cs : list coord) (out : list string) :
  fold_left align_line (map coord_text cs) {| pen_up := false; new_g_code := out |}
  = {| pen_up := false;
       new_g_code := out ++ map (fun c => ("G01 " ++ coord_text c)%string) cs |}.
Proof.
  revert out. induction cs as [|c cs IH]; intros out; cbn [map fold_left].
  - now rewrite app_nil_r.
  - rewrite align_coord_text. cbn [pen_up new_g_code]. rewrite IH.
    now rewrite <- app_assoc.
Qed.

(** The aligner over the lines of one shape: it starts and ends with the
    pen up. *)
Lemma fold_align_shape (sh : shape) (out : list string) :
  fold_left align_line (shape_lines sh) {| pen_up := true; new_g_code := out |}
  = {| pen_up := true; new_g_code := out ++ motion_block sh |}.
Proof.
  destruct sh as [|c cs]; cbn [shape_lines motion_block fold_left].
  - change (align_line {| pen_up := true; new_g_code := out |} "Z1.")
      with {| pen_up := true; new_g_code := out |}. now rewrite app_nil_r.
  - rewrite align_coord_text. cbn [pen_up new_g_code].
    change (align_line {| pen_up := true; new_g_code := out ++ [("G00 " ++ coord_text c)%string] |} "Z0.")
      with {| pen_up := false; new_g_code := out ++ [("G00 " ++ coord_text c)%string] |}.
    rewrite fold_left_app, fold_align_cuts. cbn [fold_left].
    unfold align_line at 1. cbn [startswith String.prefix pen_up new_g_code].
    cbn. now rewrite <- app_assoc.
Qed.

Lemma fold_align_shapes (shapes : list shape) (out : list string) :
  fold_left align_line (flat_map shape_lines shapes) {| pen_up := true; new_g_code := out |}
  = {| pen_up := true; new_g_code := out ++ flat_map motion_block shapes |}.
Proof.
  revert out. induction shapes as [|sh shapes IH]; intros out; cbn [flat_map].
  - now rewrite app_nil_r.
  - rewrite fold_left_app, fold_align_shape, IH. now rewrite <- app_assoc.
Qed.

(** Emitting traced shapes and aligning the file gives, between the two
    lines of the frame: for each shape a rapid move to its first point
    and cut moves to its other points, in the order of the shapes, a
    shape without points giving nothing; then the rapid move home that
    the emitter's closing line becomes. *)
Theorem g_code_allignment_of_toTextFile (shapes : list (list point)) :
  g_code_allignment (toTextFile (int_shapes shapes))
  = join_nl ("G00 X0. Y0."%string
             :: flat_map motion_block (int_shapes shapes)
             ++ ["G00 X0. Y0."%string; line "G00 X0. Y0."]).
Proof.
  unfold g_code_allignment. rewrite toTextFile_int_lines.
  rewrite !fold_left_app. cbn [fold_left app].
  change (align_line (align_line {| pen_up := true; new_g_code := ["G00 X0. Y0."%string] |}
                        "G17 G21 G90 G54") "G00 X0. Y0.")
    with {| pen_up := true; new_g_code := ["G00 X0. Y0."%string] |}.
  rewrite fold_align_shapes.
  change (align_line ?a "M2") with a.
  change (align_line ?a "X0. Y0.")
    with {| pen_up := pen_up a; new_g_code := new_g_code a ++ ["G00 X0. Y0."%string] |}.
  cbn [new_g_code pen_up]. f_equal.
  cbn [app]. rewrite <- !app_assoc. reflexivity.
Qed.

(** ** The two sinks of the emitter *)

Lemma send_coords_emit (cs : list coord) (s : sender) (e : emitter) :
  sent s = written e -> sending_up s = up e ->
  sent (fold_left send_coord cs s) = written (fold_left emit_coord cs e)
  /\ sending_up (fold_left send_coord cs s) = up (fold_left emit_coord cs e).
Proof.
  revert s e. induction cs as [|c cs IH]; intros s e Hs Hu; [now split|].
  cbn [fold_left]. apply IH.
  - unfold send_coord, emit_coord, write, coord_line, line.
    cbn [sent sending_up written up]. rewrite Hs, Hu. now destruct (up e).
  - unfold send_coord, emit_coord, write. cbn [sent sending_up written up].
    rewrite Hu. now destruct (up e).
Qed.

Lemma send_shapes_emit (shapes : list shape) (s : sender) (e : emitter) :
  sent s = written e -> sending_up s = up e ->
  sent (fold_left send_shape shapes s) = written (fold_left emit_shape shapes e).
Proof.
  revert s e. induction shapes as [|sh shapes IH]; intros s e Hs Hu; [exact Hs|].
  cbn [fold_left]. apply IH; [|reflexivity].
  unfold send_shape, emit_shape, line. cbn [sent written].
  now rewrite (proj1 (send_coords_emit sh s e Hs Hu)).
Qed.

Lemma find_port_from (ports : list (string * string)) (found : option string) :
  fold_left (fun f tp => if startswith (snd tp) "Arduino" then Some (fst tp) else f)
    ports found
  = match find_port ports with Some d => Some d | None => found end.
Proof.
  unfold find_port. revert found. induction ports as [|tp ports IH]; intros found;
    cbn [fold_left]; [reflexivity|].
  rewrite IH, (IH (if startswith (snd tp) "Arduino" then Some (fst tp) else None)).
  destruct (fold_left _ ports None); [reflexivity|].
  now destruct (startswith (snd tp) "Arduino").
Qed.

Lemma find_port_cons (tp : string * string) (ports : list (string * string)) :
  find_port (tp :: ports)
  = match find_port ports with
    | Some d => Some d
    | None => if startswith (snd tp) "Arduino" then Some (fst tp) else None
    end.
Proof. unfold find_port at 1. cbn [fold_left]. apply find_port_from. Qed.

(** [toSerial] returns [False], having sent nothing, exactly when no port
    description starts with [Arduino].  Otherwise it writes to the last
    such port, and what it sends is, write for write, what [toTextFile]
    writes to the file. *)
Theorem toSerial_as_toTextFile (ports : list (string * string)) (shapes : list shape) :
  (toSerial ports shapes = None
   <-> forall tp, In tp ports -> startswith (snd tp) "Arduino" = false)
  /\ (forall device ws,
        toSerial ports shapes = Some (device, ws) ->
        ws = toTextFile_writes shapes
        /\ exists before description after,
             ports = before ++ (device, description) :: after
             /\ startswith description "Arduino" = true
             /\ forall tp, In tp after -> startswith (snd tp) "Arduino" = false).
Proof.
  assert (Hnone : find_port ports = None
                  <-> forall tp, In tp ports -> startswith (snd tp) "Arduino" = false).
  { induction ports as [|tp ports IH]; [split; [intros _ ? [] | reflexivity]|].
    rewrite find_port_cons. split.
    - destruct (find_port ports); [discriminate|].
      destruct (startswith (snd tp) "Arduino") eqn:E; [discriminate|].
      intros _ tp' [<- | Hin]; [exact E | now apply IH].
    - intros Hall. rewrite (proj2 IH) by (intros tp' Hin; apply Hall; now right).
      now rewrite (Hall tp) by now left. }
  assert (Hsome : forall device, find_port ports = Some device ->
            exists before description after,
              ports = before ++ (device, description) :: after
              /\ startswith description "Arduino" = true
              /\ forall tp, In tp after -> startswith (snd tp) "Arduino" = false).
  { clear Hnone. induction ports as [|tp ports IH]; [discriminate|].
    intros device. rewrite find_port_cons.
    destruct (find_port ports) as [d|] eqn:Hf.
    - intros [= <-]. destruct (IH d eq_refl) as (b & desc & a & -> & Hd & Ha).
      exists (tp :: b), desc, a. repeat split; assumption.
    - destruct (startswith (snd tp) "Arduino") eqn:E; [|discriminate].
      intros [= <-]. exists [], (snd tp), ports. destruct tp as [dev desc].
      repeat split; [exact E|].
      clear IH. induction ports as [|tp' ports IH']; [intros ? []|].
      rewrite find_port_cons in Hf. destruct (find_port ports); [discriminate|].
      destruct (startswith (snd tp') "Arduino") eqn:E'; [discriminate|].
      intros tp'' [<- | Hin]; [exact E' | now apply IH']. }
  unfold toSerial. split.
  - rewrite <- Hnone. destruct (find_port ports); [split; discriminate | tauto].
  - intros device ws. destruct (find_port ports) as [d|] eqn:Hf; [|discriminate].
    intros [= <- <-]. split; [|now apply Hsome].
    unfold toTextFile_writes, write. cbn [written].
    apply (f_equal2 (@app string)); [|reflexivity].
    exact (send_shapes_emit shapes
                   {| sent := [line "G17 G21 G90 G54"; line "G00 X0. Y0."];
                      sending_up := true |}
                   {| written := [line "G17 G21 G90 G54"; line "G00 X0. Y0."]; up := true |}
                   eq_refl eq_refl).
Qed.

(** The emitter writes one pen-up marker for each shape and one pen-down
    marker for each shape that has a coordinate: the markers are balanced
    exactly when no shape is empty. *)
Theorem toTextFile_marker_counts (shapes : list shape) :
  count_writes (line "Z1.") (toTextFile_writes shapes) = length shapes
  /\ count_writes (line "Z0.") (toTextFile_writes shapes)
     = length (List.filter (fun sh => negb (length sh =? 0)%nat) shapes).
Proof.
  rewrite toTextFile_writes_blocks, !count_writes_app.
  change (count_writes (line "Z1.") [line "G17 G21 G90 G54"; line "G00 X0. Y0."]) with 0%nat.
  change (count_writes (line "Z0.") [line "G17 G21 G90 G54"; line "G00 X0. Y0."]) with 0%nat.
  change (count_writes (line "Z1.") [footer]) with 0%nat.
  change (count_writes (line "Z0.") [footer]) with 0%nat.
  rewrite !Nat.add_0_r. cbn [Nat.add].
  induction shapes as [|sh shapes [IH1 IH0]]; [split; reflexivity|].
  change (pen_blocks (sh :: shapes)) with (pen_block sh ++ pen_blocks shapes).
  rewrite !count_writes_app, IH1, IH0.
  destruct (pen_block_counts sh) as [H1 H0]. rewrite H1, H0.
  destruct sh; split; reflexivity.
Qed.

(** ** A second call of [readFromRaster] *)

Lemma nextShape_sentinel (im : image) (t t' : tracer) :
  nextShape im t = Ok ((-1, -1), t') -> nextShape im t' = Ok ((-1, -1), t').
Proof.
  intros H. destruct (nextShape_from_spec _ _ _ _ _ H)
    as [(_ & -> & _) | (before & after & Hps & _)]; [exact H|].
  assert (Hin : In (-1, -1) scan_order) by (rewrite Hps; apply in_or_app; right; now left).
  apply in_scan_order in Hin. cbn [fst snd] in Hin. lia.
Qed.

(** The outer loop stops only once [nextShape] finds no start. *)
Lemma trace_shapes_exhausts (steps depth : nat) (im : image) :
  forall (pnt nextpoint : point) (shapeList out : list (list point)) (t t' : tracer),
    (pnt = (-1, -1) -> nextShape im t = Ok ((-1, -1), t)) ->
    trace_shapes steps depth im pnt nextpoint shapeList t = Some (Ok (out, t')) ->
    nextShape im t' = Ok ((-1, -1), t').
Proof.
  induction steps as [|steps IH]; intros pnt nextpoint shapeList out t t' Hpre;
    cbn [trace_shapes]; destruct (point_eqb pnt (-1, -1)) eqn:E;
    try (intros [= <- <-]; apply Hpre; now apply point_eqb_eq); try discriminate.
  destruct (trace_shape steps depth im pnt pnt nextpoint [pnt] t) as [[[[sh np] t1]|]|];
    try discriminate.
  destruct (nextShape im t1) as [[p' t2]|] eqn:Hn; [|discriminate].
  apply IH. intros ->. exact (nextShape_sentinel im t1 t2 Hn).
Qed.

(** [done] is a global that [readFromRaster] never resets.  After a call
    that returned, a further call on the same image, whatever its loops
    and recursion may take, returns the empty ShapeList. *)
Theorem readFromRaster_again (far : point -> point -> point -> bool)
  (steps depth : nat) (im : image) (t : tracer)
  (shapeList : list (list point)) (t' : tracer) :
  readFromRaster far steps depth im t = Some (Ok (shapeList, t')) ->
  forall steps' depth',
    readFromRaster far steps' depth' im t' = Some (Ok ([], t')).
Proof.
  unfold readFromRaster at 1.
  destruct (nextShape im t) as [[p t1]|] eqn:Hn; [|discriminate].
  destruct (trace_shapes steps depth im p (0, 0) [] t1) as [[[sl t2]|]|] eqn:Ht;
    try discriminate.
  destruct (smoothRasterCoords far sl) as [sm|]; [|discriminate]. cbn [bind].
  destruct (close_shapes sm) as [cl|]; [|discriminate]. cbn [bind].
  intros [= _ <-] steps' depth'.
  assert (Hend : nextShape im t2 = Ok ((-1, -1), t2)).
  { refine (trace_shapes_exhausts _ _ _ _ _ _ _ _ _ _ Ht).
    intros ->. exact (nextShape_sentinel im t t1 Hn). }
  unfold readFromRaster. rewrite Hend. destruct steps'; reflexivity.
Qed.

Lemma readFromRaster_again_witness :
  exists shapeList t',
    readFromRaster far_from_line_exact 100 100 dark_square fresh = Some (Ok (shapeList, t'))
    /\ forall steps' depth',
         readFromRaster far_from_line_exact steps' depth' dark_square t'
         = Some (Ok ([], t')).
Proof.
  eexists. eexists. split; [vm_compute; reflexivity|].
  eapply (readFromRaster_again far_from_line_exact 100 100 dark_square fresh).
  vm_compute. reflexivity.
Defined.
